(** * k8s.io/kubernetes/pkg/runtime/helper.go

    A shallow embedding of the helpers of package [runtime]: the adapter
    [objectTyperToTyper], the federation [MultiObjectTyper], and the batch
    codec [EncodeList] / [DecodeList] with [decodeListItem].

    Go passes objects by reference and [DecodeInto] writes through the
    pointer it is handed, so the embedding keeps an explicit store of
    [Unknown] cells.  Calls into the collaborators (encoders, decoders,
    typers) are interface calls whose order the caller can observe, so every
    such call is also appended to a trace. *)

From stdpp Require Import base option list gmap strings.
From Stdlib Require Import Strings.Byte.

(** ** Data model *)

Abbreviation bytes := (list byte).

(** A Go pointer.  An address that the store does not map is the nil (or a
    dangling) pointer: reading through it panics. *)
Abbreviation addr := positive.

(** Modelled from the spec: package [unversioned] is not part of helper.go.
    [GroupVersion] is the spec's "version identifier" that an encoder may be
    overridden with. *)
Record GroupVersion := { gvGroup : string; gvVersion : string }.

(** Modelled from the spec: [unversioned.GroupVersionKind] is declared
    outside helper.go.  It is the spec's KindVersion, the names that
    "together select a concrete schema"; two are equal when all components
    are. *)
Record GroupVersionKind := { Group : string; Version : string; Kind : string }.

(** The zero value of [GroupVersionKind], which a named result holds until
    it is assigned. *)
Definition zeroGroupVersionKind : GroupVersionKind :=
  {| Group := ""; Version := ""; Kind := "" |}.

(** Modelled from the spec: [TypeMeta] is declared outside helper.go.  It is
    the "optional best-effort kind/version metadata" of an envelope; the
    zero value stands for no metadata. *)
Record TypeMeta := { APIVersion : string; TMKind : string }.

Definition zeroTypeMeta : TypeMeta := {| APIVersion := ""; TMKind := "" |}.

(** Modelled from the spec: the struct [Unknown] is declared outside
    helper.go, which reads and sets its field [Raw] and names its
    [TypeMeta].  It is the spec's Envelope, "holding raw undecoded bytes plus
    optional best-effort kind/version metadata". *)
Record Unknown := { UTypeMeta : TypeMeta; Raw : bytes }.

(** Modelled from the spec: the interface [Object] is declared outside
    helper.go.  It is "an opaque handle to a structured domain value"; a
    value of it is nil, a [*Unknown], or a pointer to a struct of some other
    type, named as [reflect.TypeOf] prints it. *)
Inductive Object :=
| nilObject
| ptrUnknown (p : addr)
| ptrStruct (ty : string) (p : addr).

Global Instance GroupVersionKind_eq_dec : EqDecision GroupVersionKind.
Proof. solve_decision. Defined.

(** The type switch [obj.(type)] of [DecodeList], case [*Unknown]. *)
Definition asUnknown (obj : Object) : option addr :=
  match obj with ptrUnknown t => Some t | _ => None end.

(** [reflect.TypeOf(obj)] formatted with [%v]. *)
Definition TypeOf (obj : Object) : string :=
  match obj with
  | nilObject => "<nil>"
  | ptrUnknown _ => "*runtime.Unknown"
  | ptrStruct ty _ => ty
  end.

(** ** Collaborators

    The interfaces [Encoder], [Decoder] and [ObjectTyper], and the package
    helpers [Encode], [Decode], [DecodeInto] and [IsNotRegisteredError] that
    call into them, are implemented outside helper.go.  They are taken as
    parameters.  Go's multiple results are tuples; a nil [error] is [None].
    [Errorf] is [fmt.Errorf] applied to the formatted message.  An encoder
    reads the object it is handed, and [EncodeList] never writes to a cell
    that exists, so within a call the outcome of [Encode] is a function of
    the reference.  [DecodeInto] receives the envelope it may write to and
    returns it as the decoder left it, whether it succeeded or not. *)
Class Collaborators := {
  error : Type;
  IsNotRegisteredError : error → bool;
  Errorf : string → error;
  Encoder : Type;
  Encode : Encoder → Object → list GroupVersion → bytes * option error;
  Decoder : Type;
  Decode : Decoder → bytes → Object * option error;
  DecodeInto : Decoder → bytes → Unknown → Unknown * option error;
  ObjectTyper : Type;
  ObjectKind : ObjectTyper → Object → GroupVersionKind * option error;
  ObjectKinds : ObjectTyper → Object → list GroupVersionKind * option error;
  Recognizes : ObjectTyper → GroupVersionKind → bool;
  IsUnversioned : ObjectTyper → Object → bool * bool;
}.

(** Modelled from the spec: [errors.NewAggregate] of package util/errors is
    not part of helper.go.  The spec has the recorded errors returned "as one
    aggregated error (order-preserving, one entry per failing position);
    otherwise return no error". *)
Definition NewAggregate {error : Type} (errlist : list error) : option (list error) :=
  match errlist with
  | [] => None
  | _ => Some errlist
  end.

Section Runtime.
Context {Co : Collaborators}.

(** ** Effects *)

(** One entry per call into a collaborator. *)
Inductive Event :=
| EvEncode (e : Encoder) (obj : Object) (overrides : list GroupVersion)
| EvDecode (d : Decoder) (data : bytes)
| EvDecodeInto (d : Decoder) (data : bytes) (into : addr)
| EvObjectKind (t : ObjectTyper) (obj : Object)
| EvObjectKinds (t : ObjectTyper) (obj : Object)
| EvRecognizes (t : ObjectTyper) (gvk : GroupVersionKind)
| EvIsUnversioned (t : ObjectTyper) (obj : Object).

Record State := { heap : gmap addr Unknown; trace : list Event }.

(** A computation reads and writes the state; [None] is a run-time panic. *)
Definition M (A : Type) : Type := State → option (A * State).

Definition ret {A} (a : A) : M A := λ s, Some (a, s).

Definition bind {A B} (m : M A) (k : A → M B) : M B :=
  λ s, match m s with
       | Some (a, s') => k a s'
       | None => None
       end.

Definition panic {A} : M A := λ _, None.

Definition emit (ev : Event) : M unit :=
  λ s, Some (tt, {| heap := heap s; trace := trace s ++ [ev] |}).

(** [*p] *)
Definition load (p : addr) : M Unknown :=
  λ s, match heap s !! p with
       | Some u => Some (u, s)
       | None => None
       end.

(** [*p = u] *)
Definition store (p : addr) (u : Unknown) : M unit :=
  λ s, match heap s !! p with
       | Some _ => Some (tt, {| heap := <[p := u]> (heap s); trace := trace s |})
       | None => None
       end.

(** [&Unknown{...}] *)
Definition new (u : Unknown) : M addr :=
  λ s, let p := fresh (dom (heap s)) in
       Some (p, {| heap := <[p := u]> (heap s); trace := trace s |}).

End Runtime.

Declare Scope go_scope.
Delimit Scope go_scope with go.
Notation "x <- m ; k" := (bind m (λ x, k))
  (at level 20, m at level 100, k at level 200, only parsing) : go_scope.
Notation "' pat <- m ; k" := (bind m (λ x, match x with pat => k end))
  (at level 20, pat pattern, m at level 100, k at level 200, only parsing) : go_scope.
Open Scope go_scope.

Section Helper.
Context {Co : Collaborators}.

(** ** Calls into the collaborators *)

Definition call_Encode (e : Encoder) (obj : Object) (overrides : list GroupVersion)
  : M (bytes * option error) :=
  _ <- emit (EvEncode e obj overrides) ; ret (Encode e obj overrides).

Definition call_Decode (d : Decoder) (data : bytes) : M (Object * option error) :=
  _ <- emit (EvDecode d data) ; ret (Decode d data).

Definition call_DecodeInto (d : Decoder) (data : bytes) (into : addr) : M (option error) :=
  _ <- emit (EvDecodeInto d data into) ;
  u <- load into ;
  _ <- store into (DecodeInto d data u).1 ;
  ret (DecodeInto d data u).2.

Definition call_ObjectKind (t : ObjectTyper) (obj : Object) :=
  _ <- emit (EvObjectKind t obj) ; ret (ObjectKind t obj).

Definition call_ObjectKinds (t : ObjectTyper) (obj : Object) :=
  _ <- emit (EvObjectKinds t obj) ; ret (ObjectKinds t obj).

Definition call_Recognizes (t : ObjectTyper) (gvk : GroupVersionKind) :=
  _ <- emit (EvRecognizes t gvk) ; ret (Recognizes t gvk).

Definition call_IsUnversioned (t : ObjectTyper) (obj : Object) :=
  _ <- emit (EvIsUnversioned t obj) ; ret (IsUnversioned t obj).

(** ** objectTyperToTyper *)

Record objectTyperToTyper := { typer : ObjectTyper }.

(** The three results are a pointer to a [GroupVersionKind] (nil is
    [None]), a bool and an error. *)
Definition objectTyperToTyper_ObjectKind (t : objectTyperToTyper) (obj : Object)
  : M (option GroupVersionKind * bool * option error) :=
  '(gvk, err) <- call_ObjectKind (typer t) obj ;
  match err with
  | Some err => ret (None, false, Some err)
  | None =>
      '(unversionedType, ok) <- call_IsUnversioned (typer t) obj ;
      if negb ok
      then ret (None, false,
                Some (Errorf ("typer returned a kind for " +:+ TypeOf obj +:+
                  ", but then reported it was not in the scheme with IsUnversioned")))
      else ret (Some gvk, unversionedType, None)
  end.

(** ** EncodeList *)

(** [for i := range objects], from index [i], with [n] rounds to go. *)
Fixpoint EncodeList_range (n i : nat) (e : Encoder) (objects : list Object)
    (overrides : list GroupVersion) (errs : list error)
  : M (list Object * list error) :=
  match n with
  | 0 => ret (objects, errs)
  | S n' =>
      match objects !! i with
      | None => panic
      | Some obj =>
          '(data, err) <- call_Encode e obj overrides ;
          match err with
          | Some err => EncodeList_range n' (S i) e objects overrides (errs ++ [err])
          | None =>
              p <- new {| UTypeMeta := zeroTypeMeta; Raw := data |} ;
              EncodeList_range n' (S i) e (<[i := ptrUnknown p]> objects) overrides errs
          end
      end
  end.

(** The slice is altered in place: the result carries its final contents
    next to the returned aggregate. *)
Definition EncodeList (e : Encoder) (objects : list Object) (overrides : list GroupVersion)
  : M (list Object * option (list error)) :=
  '(objects', errs) <- EncodeList_range (length objects) 0 e objects overrides [] ;
  ret (objects', NewAggregate errs).

(** ** decodeListItem *)

(** The first loop.  [Some r] is an early [return r]; [None] means the loop
    ran off the end of [decoders]. *)
Fixpoint decodeListItem_full (obj : addr) (decoders : list Decoder)
  : M (option (Object * option error)) :=
  match decoders with
  | [] => ret None
  | decoder :: decoders' =>
      u <- load obj ;
      '(obj', err) <- call_Decode decoder (Raw u) ;
      match err with
      | Some err =>
          if IsNotRegisteredError err
          then decodeListItem_full obj decoders'
          else ret (Some (nilObject, Some err))
      | None => ret (Some (obj', None))
      end
  end.

(** The second loop. *)
Fixpoint decodeListItem_meta (obj : addr) (decoders : list Decoder)
  : M (option (Object * option error)) :=
  match decoders with
  | [] => ret None
  | decoder :: decoders' =>
      u <- load obj ;
      err <- call_DecodeInto decoder (Raw u) obj ;
      match err with
      | None => ret (Some (ptrUnknown obj, None))
      | Some _ => decodeListItem_meta obj decoders'
      end
  end.

Definition decodeListItem (obj : addr) (decoders : list Decoder)
  : M (Object * option error) :=
  r <- decodeListItem_full obj decoders ;
  match r with
  | Some r => ret r
  | None =>
      r <- decodeListItem_meta obj decoders ;
      match r with
      | Some r => ret r
      | None => ret (ptrUnknown obj, None)
      end
  end.

(** ** DecodeList *)

(** [for i, obj := range objects], from index [i], with [n] rounds to go. *)
Fixpoint DecodeList_range (n i : nat) (objects : list Object)
    (decoders : list Decoder) (errs : list error) : M (list Object * list error) :=
  match n with
  | 0 => ret (objects, errs)
  | S n' =>
      match objects !! i with
      | None => panic
      | Some obj =>
          match asUnknown obj with
          | Some t =>
              '(decoded, err) <- decodeListItem t decoders ;
              match err with
              | Some err => DecodeList_range n' (S i) objects decoders (errs ++ [err])
              | None => DecodeList_range n' (S i) (<[i := decoded]> objects) decoders errs
              end
          | None => DecodeList_range n' (S i) objects decoders errs
          end
      end
  end.

(** The slice is altered in place: the result carries its final contents
    next to the returned errors. *)
Definition DecodeList (objects : list Object) (decoders : list Decoder)
  : M (list Object * list error) :=
  DecodeList_range (length objects) 0 objects decoders [].

(** ** MultiObjectTyper *)

(** [type MultiObjectTyper []ObjectTyper].  The functions with named results
    carry the current values of [gvk] (or [gvks]) and [err] through the loop. *)
Fixpoint MultiObjectTyper_ObjectKind_range (m : list ObjectTyper) (obj : Object)
    (gvk : GroupVersionKind) (err : option error)
  : M (GroupVersionKind * option error) :=
  match m with
  | [] => ret (gvk, err)
  | t :: m' =>
      '(gvk, err) <- call_ObjectKind t obj ;
      match err with
      | None => ret (gvk, err)
      | Some _ => MultiObjectTyper_ObjectKind_range m' obj gvk err
      end
  end.

Definition MultiObjectTyper_ObjectKind (m : list ObjectTyper) (obj : Object)
  : M (GroupVersionKind * option error) :=
  MultiObjectTyper_ObjectKind_range m obj zeroGroupVersionKind None.

Fixpoint MultiObjectTyper_ObjectKinds_range (m : list ObjectTyper) (obj : Object)
    (gvks : list GroupVersionKind) (err : option error)
  : M (list GroupVersionKind * option error) :=
  match m with
  | [] => ret (gvks, err)
  | t :: m' =>
      '(gvks, err) <- call_ObjectKinds t obj ;
      match err with
      | None => ret (gvks, err)
      | Some _ => MultiObjectTyper_ObjectKinds_range m' obj gvks err
      end
  end.

(** A nil slice is the empty list. *)
Definition MultiObjectTyper_ObjectKinds (m : list ObjectTyper) (obj : Object)
  : M (list GroupVersionKind * option error) :=
  MultiObjectTyper_ObjectKinds_range m obj [] None.

Fixpoint MultiObjectTyper_Recognizes (m : list ObjectTyper) (gvk : GroupVersionKind)
  : M bool :=
  match m with
  | [] => ret false
  | t :: m' =>
      b <- call_Recognizes t gvk ;
      if b then ret true else MultiObjectTyper_Recognizes m' gvk
  end.

Fixpoint MultiObjectTyper_IsUnversioned (m : list ObjectTyper) (obj : Object)
  : M (bool * bool) :=
  match m with
  | [] => ret (false, false)
  | t :: m' =>
      '(unversioned, ok) <- call_IsUnversioned t obj ;
      if ok then ret (unversioned, true) else MultiObjectTyper_IsUnversioned m' obj
  end.

(** ** The loops, position by position *)

(** What one round of [DecodeList] does to the position it visits: the value
    the position holds afterwards and the errors recorded for it. *)
Definition DecodeList_at (decoders : list Decoder) (obj : Object)
  : M (Object * list error) :=
  match asUnknown obj with
  | Some t =>
      '(decoded, err) <- decodeListItem t decoders ;
      match err with
      | Some err => ret (obj, [err])
      | None => ret (decoded, [])
      end
  | None => ret (obj, [])
  end.

(** What one round of [EncodeList] does to the position it visits. *)
Definition EncodeList_at (e : Encoder) (overrides : list GroupVersion) (obj : Object)
  : M (Object * list error) :=
  '(data, err) <- call_Encode e obj overrides ;
  match err with
  | Some err => ret (obj, [err])
  | None =>
      p <- new {| UTypeMeta := zeroTypeMeta; Raw := data |} ;
      ret (ptrUnknown p, [])
  end.

(** The batch policy in the spec's words: every position is visited once, in
    order, whatever happened at the positions before it, and the errors of
    all positions are handed back together at the end. *)
Fixpoint for_each_position (visit : Object → M (Object * list error))
    (objects : list Object) : M (list Object * list error) :=
  match objects with
  | [] => ret ([], [])
  | obj :: rest =>
      '(obj', errs1) <- visit obj ;
      '(rest', errs2) <- for_each_position visit rest ;
      ret (obj' :: rest', errs1 ++ errs2)
  end.

(** ** Vocabulary of the statements *)

(** The state after further calls [evs] into the collaborators. *)
Definition log (evs : list Event) (s : State) : State :=
  {| heap := heap s; trace := trace s ++ evs |}.

(** The state after the cell at [p] was overwritten with [u]. *)
Definition poke (p : addr) (u : Unknown) (s : State) : State :=
  {| heap := <[p := u]> (heap s); trace := trace s |}.

(** The decoder does not own the kind: its full decode of [data] fails with
    an error that [IsNotRegisteredError] accepts. *)
Definition declines (data : bytes) (d : Decoder) : bool :=
  match (Decode d data).2 with
  | Some err => IsNotRegisteredError err
  | None => false
  end.

(** The decoders of [ds], asked in order for the metadata of the envelope,
    all fail: the calls made and the envelope as the last of them left it.
    [None] when one of them succeeds. *)
Fixpoint meta_failures (into : addr) (ds : list Decoder) (u : Unknown)
  : option (list Event * Unknown) :=
  match ds with
  | [] => Some ([], u)
  | d :: ds' =>
      match (DecodeInto d (Raw u) u).2 with
      | None => None
      | Some _ =>
          match meta_failures into ds' (DecodeInto d (Raw u) u).1 with
          | Some (evs, u') => Some (EvDecodeInto d (Raw u) into :: evs, u')
          | None => None
          end
      end
  end.

(** Every [*Unknown] of the collection points to an envelope in the store. *)
Definition live (h : gmap addr Unknown) (obj : Object) : bool :=
  match asUnknown obj with
  | Some t => bool_decide (is_Some (h !! t))
  | None => true
  end.

(** The errors of the positions that the encoder fails on, in position
    order. *)
Definition failures (e : Encoder) (overrides : list GroupVersion) (objects : list Object)
  : list error :=
  omap (λ obj, (Encode e obj overrides).2) objects.

(** A reading of "recorded tagged with position i (or the failing object's
    description)": from every recorded entry one can read off the position
    it belongs to, or the description of the object that failed there. *)
Definition tagged {D : Type} (describe : Object → D) (tag : error → nat + D)
    (objects : list Object) (failing : list nat) (errs : list error) : Prop :=
  Forall2 (λ i err,
    tag err = inl i ∨ ∃ obj, objects !! i = Some obj ∧ tag err = inr (describe obj))
    failing errs.

End Helper.

(** ** A concrete set of collaborators

    One encoder that knows pods and envelopes and one that knows nothing.
    Five decoders: [decForeign] owns no kind and finds no metadata;
    [decPods] decodes everything to a pod; [decStrict] rejects the bytes;
    [decMeta] owns no kind but reads the metadata; [decScribble] owns no kind
    and fails on the metadata after writing into the envelope.  Five typers:
    [typNone] and [typClosed] know no object, [typPods] and [typStatus] know
    every object, [typBroken] knows the kind but not whether it is
    unversioned. *)

Inductive exError :=
| errNotRegistered (kind : string)
| errMalformed
| errUnsupported
| errText (msg : string).

Inductive exEncoder := jsonEncoder | brokenEncoder.

Inductive exDecoder := decForeign | decPods | decStrict | decMeta | decScribble.

Inductive exTyper := typNone | typClosed | typPods | typStatus | typBroken.

Definition podKind : GroupVersionKind := {| Group := ""; Version := "v1"; Kind := "Pod" |}.
Definition statusKind : GroupVersionKind := {| Group := ""; Version := "v1"; Kind := "Status" |}.
Definition podMeta : TypeMeta := {| APIVersion := "v1"; TMKind := "Pod" |}.
Definition junkMeta : TypeMeta := {| APIVersion := "?"; TMKind := "?" |}.

Definition exEncode (e : exEncoder) (obj : Object) (overrides : list GroupVersion)
  : bytes * option exError :=
  match e, obj with
  | jsonEncoder, ptrStruct "*api.Pod" _ => ([x70; x6f; x64], None)
  | jsonEncoder, ptrUnknown _ => ([x72; x61; x77], None)
  | _, _ => ([], Some errUnsupported)
  end.

Definition exDecode (d : exDecoder) (data : bytes) : Object * option exError :=
  match d with
  | decPods => (ptrStruct "*api.Pod" 7, None)
  | decStrict => (nilObject, Some errMalformed)
  | _ => (nilObject, Some (errNotRegistered "Pod"))
  end.

Definition exDecodeInto (d : exDecoder) (data : bytes) (into : Unknown)
  : Unknown * option exError :=
  match d with
  | decPods | decMeta => ({| UTypeMeta := podMeta; Raw := Raw into |}, None)
  | decScribble => ({| UTypeMeta := junkMeta; Raw := Raw into |}, Some errMalformed)
  | _ => (into, Some errMalformed)
  end.

Definition exObjectKind (t : exTyper) (obj : Object) : GroupVersionKind * option exError :=
  match t with
  | typNone => (zeroGroupVersionKind, Some (errNotRegistered (TypeOf obj)))
  | typClosed => (podKind, Some errMalformed)
  | typStatus => (statusKind, None)
  | _ => (podKind, None)
  end.

Definition exObjectKinds (t : exTyper) (obj : Object)
  : list GroupVersionKind * option exError :=
  match t with
  | typNone => ([], Some (errNotRegistered (TypeOf obj)))
  | typClosed => ([podKind], Some errMalformed)
  | typStatus => ([statusKind], None)
  | _ => ([podKind; statusKind], None)
  end.

Definition exRecognizes (t : exTyper) (gvk : GroupVersionKind) : bool :=
  match t with
  | typNone | typClosed => false
  | typStatus => bool_decide (gvk = statusKind)
  | _ => bool_decide (gvk = podKind)
  end.

Definition exIsUnversioned (t : exTyper) (obj : Object) : bool * bool :=
  match t with
  | typPods => (false, true)
  | typStatus => (true, true)
  | typClosed => (true, false)
  | _ => (false, false)
  end.

Definition exIsNotRegisteredError (err : exError) : bool :=
  match err with errNotRegistered _ => true | _ => false end.

Global Instance exCollaborators : Collaborators := {|
  error := exError;
  IsNotRegisteredError := exIsNotRegisteredError;
  Errorf := errText;
  Encoder := exEncoder;
  Encode := exEncode;
  Decoder := exDecoder;
  Decode := exDecode;
  DecodeInto := exDecodeInto;
  ObjectTyper := exTyper;
  ObjectKind := exObjectKind;
  ObjectKinds := exObjectKinds;
  Recognizes := exRecognizes;
  IsUnversioned := exIsUnversioned;
|}.

Definition envelope (data : bytes) : Unknown := {| UTypeMeta := zeroTypeMeta; Raw := data |}.

(** A store with two envelopes, at addresses 1 and 2, and an empty trace. *)
Definition exState : State :=
  {| heap := <[1%positive := envelope [x7b; x7d]]> (<[2%positive := envelope [x5b; x5d]]> ∅);
     trace := [] |}.

(** ** Vocabulary of the further properties *)

Section Footprint.
Context {Co : Collaborators}.

(** The envelopes a collection refers to, in position order. *)
Definition envelopes (objects : list Object) : list addr := omap asUnknown objects.

(** [s'] comes from [s] by calls into the collaborators and by writes to
    cells among [ts]: no cell is added or removed, and every other cell is
    as it was. *)
Definition writes_within (ts : list addr) (s s' : State) : Prop :=
  dom (heap s') = dom (heap s) ∧
  (∀ q, q ∉ ts → heap s' !! q = heap s !! q) ∧
  trace s `prefix_of` trace s'.

(** The envelopes that [EncodeList] put into the positions where the encoder
    succeeded, read off the collection before and after. *)
Fixpoint encoded (e : Encoder) (overrides : list GroupVersion)
    (objects objects' : list Object) : list addr :=
  match objects, objects' with
  | obj :: objects, obj' :: objects' =>
      match (Encode e obj overrides).2, asUnknown obj' with
      | None, Some p => p :: encoded e overrides objects objects'
      | _, _ => encoded e overrides objects objects'
      end
  | _, _ => []
  end.

(** A call that [DecodeList] may make: a full decode by one of the decoders
    [ds], or a metadata decode by one of them into an envelope among [ts]. *)
Definition decoder_call (ds : list Decoder) (ts : list addr) (ev : Event) : Prop :=
  match ev with
  | EvDecode d _ => d ∈ ds
  | EvDecodeInto d _ into => d ∈ ds ∧ into ∈ ts
  | _ => False
  end.

(** The elements of a list up to and including the first that satisfies
    [P]; the whole list when none does. *)
Fixpoint upto_first {A} (P : A → bool) (l : list A) : list A :=
  match l with
  | [] => []
  | x :: l' => if P x then [x] else x :: upto_first P l'
  end.

End Footprint.

(** * Properties *)

Section Properties.
Context {Co : Collaborators}.

(** ** States *)

Lemma log_nil (s : State) : log [] s = s.
Proof. destruct s as [h tr]. unfold log. simpl. by rewrite app_nil_r. Qed.

Lemma log_log (evs1 evs2 : list Event) (s : State) :
  log evs2 (log evs1 s) = log (evs1 ++ evs2) s.
Proof. unfold log. simpl. by rewrite app_assoc. Qed.

Lemma poke_id (p : addr) (u : Unknown) (s : State) :
  heap s !! p = Some u → poke p u s = s.
Proof. destruct s as [h tr]. unfold poke. simpl. intros Hp. by rewrite insert_id. Qed.

Lemma poke_poke (p : addr) (u1 u2 : Unknown) (s : State) :
  poke p u2 (poke p u1 s) = poke p u2 s.
Proof. unfold poke. simpl. by rewrite insert_insert_eq. Qed.

Lemma poke_log (p : addr) (u : Unknown) (evs : list Event) (s : State) :
  poke p u (log evs s) = log evs (poke p u s).
Proof. done. Qed.

(** ** Running a computation *)

Lemma bind_eq {A B} (m : M A) (k : A → M B) (s : State) :
  bind m k s = match m s with Some (a, s') => k a s' | None => None end.
Proof. done. Qed.

Lemma ret_eq {A} (a : A) (s : State) : ret a s = Some (a, s).
Proof. done. Qed.

Ltac run := repeat (progress (rewrite ?bind_eq, ?ret_eq; cbv beta iota)).

(** ** The loops visit the positions one by one *)

Lemma insert_middle {A} (pre post : list A) (x y : A) :
  <[length pre := y]> (pre ++ x :: post) = pre ++ y :: post.
Proof. induction pre as [|z pre IH]; simpl; [done|]. by rewrite IH. Qed.

Lemma DecodeList_range_visits (decoders : list Decoder) (post pre : list Object)
    (errs : list error) (s : State) :
  DecodeList_range (length post) (length pre) (pre ++ post) decoders errs s =
  ('(post', errs') <- for_each_position (DecodeList_at decoders) post ;
   ret (pre ++ post', errs ++ errs')) s.
Proof.
  revert pre errs s. induction post as [|obj post IH]; intros pre errs s.
  - simpl. unfold bind, ret. by rewrite !app_nil_r.
  - assert (Hnext : ∀ x errs0 s0,
      DecodeList_range (length post) (S (length pre)) (pre ++ x :: post) decoders errs0 s0 =
      ('(post', errs') <- for_each_position (DecodeList_at decoders) post ;
       ret (pre ++ x :: post', errs0 ++ errs')) s0).
    { intros x errs0 s0. specialize (IH (pre ++ [x]) errs0 s0).
      rewrite length_app, Nat.add_1_r, <- app_assoc in IH. simpl in IH. rewrite IH.
      unfold bind, ret.
      destruct (for_each_position _ post s0) as [[[post' errs'] s2]|]; [|done].
      by rewrite <- ?app_assoc. }
    simpl. rewrite list_lookup_middle by done.
    unfold DecodeList_at. destruct (asUnknown obj) as [t|].
    + run.
      destruct (decodeListItem t decoders s) as [[[decoded [err|]] s1]|]; [| |done].
      * rewrite Hnext. unfold bind, ret.
        destruct (for_each_position _ post s1) as [[[post' errs'] s2]|]; [|done].
        by rewrite <- ?app_assoc.
      * rewrite insert_middle, Hnext. unfold bind, ret.
        destruct (for_each_position _ post s1) as [[[post' errs'] s2]|]; [|done].
        by rewrite <- ?app_assoc.
    + rewrite Hnext. unfold bind, ret.
      destruct (for_each_position _ post s) as [[[post' errs'] s2]|]; [|done].
      by rewrite <- ?app_assoc.
Qed.

Lemma DecodeList_visits (decoders : list Decoder) (objects : list Object) (s : State) :
  DecodeList objects decoders s = for_each_position (DecodeList_at decoders) objects s.
Proof.
  unfold DecodeList.
  pose proof (DecodeList_range_visits decoders objects [] [] s) as Hv.
  simpl in Hv. rewrite Hv. unfold bind, ret. by destruct (for_each_position _ objects s) as [[[post' errs'] s2]|].
Qed.

Lemma EncodeList_range_visits (e : Encoder) (overrides : list GroupVersion)
    (post pre : list Object) (errs : list error) (s : State) :
  EncodeList_range (length post) (length pre) e (pre ++ post) overrides errs s =
  ('(post', errs') <- for_each_position (EncodeList_at e overrides) post ;
   ret (pre ++ post', errs ++ errs')) s.
Proof.
  revert pre errs s. induction post as [|obj post IH]; intros pre errs s.
  - simpl. unfold bind, ret. by rewrite !app_nil_r.
  - simpl. rewrite list_lookup_middle by done.
    unfold EncodeList_at. run.
    destruct (call_Encode e obj overrides s) as [[[data [err|]] s1]|]; [| |done].
    + specialize (IH (pre ++ [obj]) (errs ++ [err]) s1).
      rewrite length_app, Nat.add_1_r, <- app_assoc in IH. simpl in IH.
      rewrite IH. unfold bind, ret.
      destruct (for_each_position _ post s1) as [[[post' errs'] s2]|]; [|done].
      by rewrite <- ?app_assoc.
    + run. unfold new at 1 2.
      rewrite insert_middle.
      set (p := fresh (dom (heap s1))).
      set (s1' := Build_State _ _).
      specialize (IH (pre ++ [ptrUnknown p]) errs s1').
      rewrite length_app, Nat.add_1_r, <- app_assoc in IH. simpl in IH.
      rewrite IH. unfold bind, ret.
      destruct (for_each_position _ post s1') as [[[post' errs'] s2]|]; [|done].
      by rewrite <- ?app_assoc.
Qed.

Lemma EncodeList_visits (e : Encoder) (overrides : list GroupVersion)
    (objects : list Object) (s : State) :
  EncodeList e objects overrides s =
  ('(objects', errs) <- for_each_position (EncodeList_at e overrides) objects ;
   ret (objects', NewAggregate errs)) s.
Proof.
  unfold EncodeList. rewrite bind_eq.
  pose proof (EncodeList_range_visits e overrides objects [] [] s) as Hv.
  simpl in Hv. rewrite Hv. unfold bind, ret. by destruct (for_each_position _ objects s) as [[[post' errs'] s2]|].
Qed.

Lemma for_each_position_app (visit : Object → M (Object * list error))
    (pre post : list Object) (s : State) :
  for_each_position visit (pre ++ post) s =
  ('(pre', errs1) <- for_each_position visit pre ;
   '(post', errs2) <- for_each_position visit post ;
   ret (pre' ++ post', errs1 ++ errs2)) s.
Proof.
  revert s. induction pre as [|obj pre IH]; intros s; simpl.
  - unfold bind, ret. by destruct (for_each_position visit post s) as [[[post' errs2] s2]|].
  - run. destruct (visit obj s) as [[[obj' errs0] s0]|]; [|done].
    run. rewrite IH. unfold bind, ret.
    destruct (for_each_position visit pre s0) as [[[pre' errs1] s1]|]; [|done].
    destruct (for_each_position visit post s1) as [[[post' errs2] s2]|]; [|done].
    by rewrite app_assoc.
Qed.

(** ** decodeListItem *)

Lemma call_Decode_eq (d : Decoder) (data : bytes) (s : State) :
  call_Decode d data s = Some (Decode d data, log [EvDecode d data] s).
Proof. done. Qed.

Lemma load_eq (p : addr) (u : Unknown) (s : State) :
  heap s !! p = Some u → load p s = Some (u, s).
Proof. intros Hp. unfold load. by rewrite Hp. Qed.

Lemma call_DecodeInto_eq (d : Decoder) (data : bytes) (p : addr) (u : Unknown) (s : State) :
  heap s !! p = Some u →
  call_DecodeInto d data p s =
  Some ((DecodeInto d data u).2, poke p (DecodeInto d data u).1 (log [EvDecodeInto d data p] s)).
Proof.
  intros Hp. unfold call_DecodeInto, emit, load, store. run. simpl. rewrite Hp. run.
  simpl. by rewrite Hp.
Qed.

Lemma decodeListItem_full_declined (ds : list Decoder) (t : addr) (u : Unknown) (s : State) :
  heap s !! t = Some u →
  Forall (declines (Raw u)) ds →
  decodeListItem_full t ds s = Some (None, log (map (λ d, EvDecode d (Raw u)) ds) s).
Proof.
  intros Ht Hds. revert s Ht. induction Hds as [|d ds Hd Hds IH]; intros s Ht; simpl.
  - by rewrite log_nil.
  - run. rewrite (load_eq t u s Ht). run. rewrite call_Decode_eq. run.
    unfold declines in Hd. destruct (Decode d (Raw u)) as [obj' [err|]]; simpl in Hd; [|done].
    destruct (IsNotRegisteredError err); [|done].
    rewrite IH by done. by rewrite log_log.
Qed.

Lemma decodeListItem_full_answer (ds1 ds2 : list Decoder) (d : Decoder) (t : addr)
    (u : Unknown) (s : State) :
  heap s !! t = Some u →
  Forall (declines (Raw u)) ds1 →
  ¬ declines (Raw u) d →
  decodeListItem_full t (ds1 ++ d :: ds2) s =
  Some (Some (match (Decode d (Raw u)).2 with
              | Some err => (nilObject, Some err)
              | None => ((Decode d (Raw u)).1, None)
              end),
        log (map (λ x, EvDecode x (Raw u)) (ds1 ++ [d])) s).
Proof.
  intros Ht Hds Hd. revert s Ht. induction Hds as [|x ds1 Hx Hds IH]; intros s Ht; simpl.
  - run. rewrite (load_eq t u s Ht). run. rewrite call_Decode_eq. run.
    unfold declines in Hd. destruct (Decode d (Raw u)) as [obj' [err|]]; simpl in *; [|done].
    by destruct (IsNotRegisteredError err).
  - run. rewrite (load_eq t u s Ht). run. rewrite call_Decode_eq. run.
    unfold declines in Hx. destruct (Decode x (Raw u)) as [obj' [err|]]; simpl in Hx; [|done].
    destruct (IsNotRegisteredError err); [|done].
    rewrite IH by done. by rewrite log_log.
Qed.

Lemma decodeListItem_meta_failures (ds : list Decoder) (t : addr) (u u' : Unknown)
    (evs : list Event) (s : State) :
  heap s !! t = Some u →
  meta_failures t ds u = Some (evs, u') →
  decodeListItem_meta t ds s = Some (None, poke t u' (log evs s)).
Proof.
  revert u evs s. induction ds as [|d ds IH]; intros u evs s Ht Hf; simpl in *.
  - injection Hf as <- <-. by rewrite log_nil, poke_id.
  - run. rewrite (load_eq t u s Ht). run. rewrite (call_DecodeInto_eq d (Raw u) t u s Ht). run.
    destruct (DecodeInto d (Raw u) u) as [u1 [err|]]; simpl in *; [|done].
    destruct (meta_failures t ds u1) as [[evs1 u2]|] eqn:Hf1; [|done].
    injection Hf as <- <-.
    rewrite (IH u1 evs1 _ (lookup_insert_eq _ _ _) Hf1).
    by rewrite <- poke_log, poke_poke, log_log.
Qed.

Lemma decodeListItem_meta_success (ds1 ds2 : list Decoder) (d : Decoder) (t : addr)
    (u u1 : Unknown) (evs : list Event) (s : State) :
  heap s !! t = Some u →
  meta_failures t ds1 u = Some (evs, u1) →
  (DecodeInto d (Raw u1) u1).2 = None →
  decodeListItem_meta t (ds1 ++ d :: ds2) s =
  Some (Some (ptrUnknown t, None),
        poke t (DecodeInto d (Raw u1) u1).1 (log (evs ++ [EvDecodeInto d (Raw u1) t]) s)).
Proof.
  revert u evs s. induction ds1 as [|x ds1 IH]; intros u evs s Ht Hf Hd; simpl in *.
  - injection Hf as <- <-.
    run. rewrite (load_eq t u s Ht). run. rewrite (call_DecodeInto_eq d (Raw u) t u s Ht). run.
    by rewrite Hd.
  - run. rewrite (load_eq t u s Ht). run. rewrite (call_DecodeInto_eq x (Raw u) t u s Ht). run.
    destruct (DecodeInto x (Raw u) u) as [u0 [err|]]; simpl in *; [|done].
    destruct (meta_failures t ds1 u0) as [[evs1 u2]|] eqn:Hf1; [|done].
    injection Hf as <- <-.
    rewrite (IH u0 evs1 _ (lookup_insert_eq _ _ _) Hf1 Hd).
    by rewrite <- poke_log, poke_poke, log_log.
Qed.

Lemma meta_failures_calls (t : addr) (ds : list Decoder) (u u' : Unknown) (evs : list Event) :
  meta_failures t ds u = Some (evs, u') →
  Forall2 (λ d ev, ∃ data, ev = EvDecodeInto d data t) ds evs.
Proof.
  revert u evs. induction ds as [|d ds IH]; intros u evs Hf; simpl in Hf.
  - injection Hf as <- <-. constructor.
  - destruct (DecodeInto d (Raw u) u).2; [|done].
    destruct (meta_failures t ds _) as [[evs1 u2]|] eqn:Hf1; [|done].
    injection Hf as <- <-. constructor; eauto.
Qed.

Lemma meta_failures_quiet (t : addr) (ds : list Decoder) (u u' : Unknown) (evs : list Event) :
  Forall (λ d, (DecodeInto d (Raw u) u).1 = u) ds →
  meta_failures t ds u = Some (evs, u') → u' = u.
Proof.
  intros Hq. revert evs. induction Hq as [|d ds Hd Hq IH]; intros evs Hf; simpl in Hf.
  - by injection Hf as <- <-.
  - destruct (DecodeInto d (Raw u) u).2; [|done]. rewrite Hd in Hf.
    destruct (meta_failures t ds u) as [[evs1 u2]|] eqn:Hf1; [|done].
    injection Hf as <- <-. by eapply IH.
Qed.

(** ** One position of a collection *)

Lemma for_each_position_length (visit : Object → M (Object * list error))
    (objects objects' : list Object) (errs : list error) (s s' : State) :
  for_each_position visit objects s = Some ((objects', errs), s') →
  length objects' = length objects.
Proof.
  revert objects' errs s s'.
  induction objects as [|obj objects IH]; intros objects' errs s s'; simpl.
  - by intros [= <- <- <-].
  - run. destruct (visit obj s) as [[[obj' errs1] s1]|]; [|done]. run.
    destruct (for_each_position visit objects s1) as [[[rest' errs2] s2]|] eqn:Hrest; [|done].
    run. intros [= <- <- <-]. simpl. f_equal. by eapply IH.
Qed.

Lemma DecodeList_position (decoders : list Decoder) (pre post : list Object)
    (obj : Object) (s : State) :
  DecodeList (pre ++ obj :: post) decoders s =
  ('(pre', errs1) <- DecodeList pre decoders ;
   '(obj', errs2) <- DecodeList_at decoders obj ;
   '(post', errs3) <- DecodeList post decoders ;
   ret (pre' ++ obj' :: post', errs1 ++ errs2 ++ errs3)) s.
Proof.
  rewrite DecodeList_visits, for_each_position_app. run.
  rewrite DecodeList_visits.
  destruct (for_each_position _ pre s) as [[[pre' errs1] s1]|]; [|done]. run. simpl. run.
  destruct (DecodeList_at decoders obj s1) as [[[obj' errs2] s2]|]; [|done]. run.
  rewrite DecodeList_visits.
  destruct (for_each_position _ post s2) as [[[post' errs3] s3]|]; [|done]. by run.
Qed.

Lemma DecodeList_length (decoders : list Decoder) (objects objects' : list Object)
    (errs : list error) (s s' : State) :
  DecodeList objects decoders s = Some ((objects', errs), s') →
  length objects' = length objects.
Proof. rewrite DecodeList_visits. apply for_each_position_length. Qed.

(** C1: at a position that holds an envelope, the decoders are asked for a
    full decode in the given order, each on the raw bytes; one that answers
    "kind not registered" hands over to the next.  The first that decodes
    puts its object into the position and no decoder is asked anything
    further for it.  The first that fails otherwise has its error recorded
    for the position, after the errors of the positions before and before
    those of the positions after; the position and the store stay as they
    were and no metadata call is made.  Either way the remaining positions
    are processed next. *)
Theorem DecodeList_full_decode (pre post : list Object) (t : addr) (u : Unknown)
    (ds1 ds2 : list Decoder) (d : Decoder) (s s1 : State)
    (pre' : list Object) (errs1 : list error) :
  DecodeList pre (ds1 ++ d :: ds2) s = Some ((pre', errs1), s1) →
  heap s1 !! t = Some u →
  Forall (declines (Raw u)) ds1 →
  let decoders := ds1 ++ d :: ds2 in
  let s2 := log (map (λ x, EvDecode x (Raw u)) (ds1 ++ [d])) s1 in
  length pre' = length pre ∧
  (∀ decoded, Decode d (Raw u) = (decoded, None) →
     DecodeList (pre ++ ptrUnknown t :: post) decoders s =
     ('(post', errs3) <- DecodeList post decoders ;
      ret (pre' ++ decoded :: post', errs1 ++ errs3)) s2) ∧
  (∀ obj err, Decode d (Raw u) = (obj, Some err) → IsNotRegisteredError err = false →
     DecodeList (pre ++ ptrUnknown t :: post) decoders s =
     ('(post', errs3) <- DecodeList post decoders ;
      ret (pre' ++ ptrUnknown t :: post', errs1 ++ err :: errs3)) s2).
Proof.
  intros Hpre Ht Hds1 decoders s2. subst decoders.
  split; [by eapply DecodeList_length|].
  assert (Hitem : ¬ declines (Raw u) d →
    decodeListItem t (ds1 ++ d :: ds2) s1 =
    Some (match (Decode d (Raw u)).2 with
          | Some err => (nilObject, Some err)
          | None => ((Decode d (Raw u)).1, None)
          end, s2)).
  { intros Hd. unfold decodeListItem. run.
    rewrite (decodeListItem_full_answer ds1 ds2 d t u s1 Ht Hds1 Hd). by run. }
  split.
  - intros decoded Hdec. rewrite DecodeList_position. run. rewrite Hpre. run.
    unfold DecodeList_at. simpl. run. rewrite Hitem.
    2:{ unfold declines. rewrite Hdec. simpl. intros []. }
    rewrite Hdec. simpl. run.
    by destruct (DecodeList post _ s2) as [[[post' errs3] s3]|].
  - intros obj err Hdec Herr. rewrite DecodeList_position. run. rewrite Hpre. run.
    unfold DecodeList_at. simpl. run. rewrite Hitem.
    2:{ unfold declines. rewrite Hdec. simpl. rewrite Herr. intros []. }
    rewrite Hdec. simpl. run.
    by destruct (DecodeList post _ s2) as [[[post' errs3] s3]|].
Qed.

(** C2, amended: at an envelope position where every decoder answered "kind
    not registered" to the full decode, the decoders are asked in order to
    write the metadata into the envelope itself.  The pass stops at the first
    that succeeds: the position still refers to the same envelope, which now
    holds what that decoder wrote.  If none succeeds the position still
    refers to the same envelope, whose contents are what the failed attempts
    left in it: nothing is rolled back, and the store is as before the call
    only when no failed attempt wrote into the envelope.  No error is
    recorded for the position in either case. *)
Theorem DecodeList_metadata_fallback (pre post : list Object) (t : addr) (u : Unknown)
    (decoders : list Decoder) (s s1 : State) (pre' : list Object) (errs1 : list error) :
  DecodeList pre decoders s = Some ((pre', errs1), s1) →
  heap s1 !! t = Some u →
  Forall (declines (Raw u)) decoders →
  let asked := log (map (λ x, EvDecode x (Raw u)) decoders) s1 in
  length pre' = length pre ∧
  (∀ ds1 d ds2 evs u1 u2,
     decoders = ds1 ++ d :: ds2 →
     meta_failures t ds1 u = Some (evs, u1) →
     DecodeInto d (Raw u1) u1 = (u2, None) →
     DecodeList (pre ++ ptrUnknown t :: post) decoders s =
     ('(post', errs3) <- DecodeList post decoders ;
      ret (pre' ++ ptrUnknown t :: post', errs1 ++ errs3))
       (poke t u2 (log (evs ++ [EvDecodeInto d (Raw u1) t]) asked))) ∧
  (∀ evs u1,
     meta_failures t decoders u = Some (evs, u1) →
     DecodeList (pre ++ ptrUnknown t :: post) decoders s =
     ('(post', errs3) <- DecodeList post decoders ;
      ret (pre' ++ ptrUnknown t :: post', errs1 ++ errs3))
       (poke t u1 (log evs asked)) ∧
     (Forall (λ x, (DecodeInto x (Raw u) u).1 = u) decoders →
      heap (poke t u1 (log evs asked)) = heap s1)).
Proof.
  intros Hpre Ht Hds asked. split; [by eapply DecodeList_length|].
  assert (Hfull : decodeListItem_full t decoders s1 = Some (None, asked)).
  { by apply decodeListItem_full_declined. }
  assert (Hasked : heap asked !! t = Some u) by done.
  split.
  - intros ds1 d ds2 evs u1 u2 -> Hfail Hd.
    rewrite DecodeList_position. run. rewrite Hpre. run.
    unfold DecodeList_at, decodeListItem. simpl. run. rewrite Hfull. run.
    rewrite (decodeListItem_meta_success ds1 ds2 d t u u1 evs asked Hasked Hfail)
      by (by rewrite Hd).
    rewrite Hd. simpl. run.
    by destruct (DecodeList post _ _) as [[[post' errs3] s3]|].
  - intros evs u1 Hfail. split.
    + rewrite DecodeList_position. run. rewrite Hpre. run.
      unfold DecodeList_at, decodeListItem. simpl. run. rewrite Hfull. run.
      rewrite (decodeListItem_meta_failures decoders t u u1 evs asked Hasked Hfail). run.
      by destruct (DecodeList post _ _) as [[[post' errs3] s3]|].
    + intros Hquiet. rewrite (meta_failures_quiet t decoders u u1 evs Hquiet Hfail).
      simpl. by rewrite insert_id.
Qed.

(** C10: with no decoders [DecodeList] returns no error and leaves every
    position, envelope or not, and the whole state as they were. *)
Theorem DecodeList_no_decoders (objects : list Object) (s : State) :
  DecodeList objects [] s = Some ((objects, []), s).
Proof.
  rewrite DecodeList_visits. induction objects as [|obj objects IH]; simpl; [done|].
  assert (DecodeList_at [] obj s = Some ((obj, []), s)) as Hat by by destruct obj.
  run. rewrite Hat. run. rewrite IH. by run.
Qed.

(** ** [DecodeList] returns *)

Lemma decodeListItem_full_returns (ds : list Decoder) (t : addr) (u : Unknown) (s : State) :
  heap s !! t = Some u →
  ∃ r evs, decodeListItem_full t ds s = Some (r, log evs s).
Proof.
  intros Ht. revert s Ht. induction ds as [|d ds IH]; intros s Ht; simpl.
  - exists None, []. by rewrite log_nil.
  - run. rewrite (load_eq t u s Ht). run. rewrite call_Decode_eq. run.
    destruct (Decode d (Raw u)) as [obj' [err|]]; [|by eauto].
    destruct (IsNotRegisteredError err); [|by eauto].
    destruct (IH (log [EvDecode d (Raw u)] s) Ht) as (r & evs & ->).
    rewrite log_log. eauto.
Qed.

Lemma decodeListItem_meta_returns (ds : list Decoder) (t : addr) (u : Unknown) (s : State) :
  heap s !! t = Some u →
  ∃ r s', decodeListItem_meta t ds s = Some (r, s') ∧ dom (heap s') = dom (heap s).
Proof.
  revert u s. induction ds as [|d ds IH]; intros u s Ht; simpl.
  - by exists None, s.
  - run. rewrite (load_eq t u s Ht). run. rewrite (call_DecodeInto_eq d (Raw u) t u s Ht). run.
    set (s1 := poke t _ _).
    assert (Hdom : dom (heap s1) = dom (heap s)).
    { simpl. by apply dom_insert_lookup_L. }
    destruct (DecodeInto d (Raw u) u).2; [|by eauto].
    destruct (IH (DecodeInto d (Raw u) u).1 s1) as (r & s' & -> & Hdom').
    { apply lookup_insert_eq. }
    exists r, s'. split; [done|]. by rewrite Hdom'.
Qed.

Lemma decodeListItem_returns (ds : list Decoder) (t : addr) (u : Unknown) (s : State) :
  heap s !! t = Some u →
  ∃ r s', decodeListItem t ds s = Some (r, s') ∧ dom (heap s') = dom (heap s).
Proof.
  intros Ht. unfold decodeListItem. run.
  destruct (decodeListItem_full_returns ds t u s Ht) as (r & evs & ->). run.
  destruct r as [r|]; [by eauto|]. run.
  destruct (decodeListItem_meta_returns ds t u (log evs s) Ht) as (r & s' & -> & Hdom). run.
  destruct r as [r|]; eauto.
Qed.

Lemma live_dom (h h' : gmap addr Unknown) (obj : Object) :
  dom h' = dom h → live h' obj = live h obj.
Proof.
  intros Hdom. unfold live. destruct (asUnknown obj) as [t|]; [|done].
  apply bool_decide_ext. by rewrite <- !elem_of_dom, Hdom.
Qed.

Lemma DecodeList_at_returns (ds : list Decoder) (obj : Object) (s : State) :
  live (heap s) obj →
  ∃ r s', DecodeList_at ds obj s = Some (r, s') ∧ dom (heap s') = dom (heap s).
Proof.
  unfold live, DecodeList_at. destruct (asUnknown obj) as [t|]; [|by eauto].
  intros [u Ht]%bool_decide_unpack. run.
  destruct (decodeListItem_returns ds t u s Ht) as ([decoded [err|]] & s' & -> & Hdom);
    run; eauto.
Qed.

Lemma DecodeList_returns (ds : list Decoder) (objects : list Object) (s : State) :
  Forall (live (heap s)) objects →
  ∃ r s', DecodeList objects ds s = Some (r, s').
Proof.
  rewrite DecodeList_visits. revert s.
  induction objects as [|obj objects IH]; intros s Hlive; simpl; [by eauto|].
  apply Forall_cons in Hlive as [Hobj Hlive]. run.
  destruct (DecodeList_at_returns ds obj s Hobj) as ([obj' errs1] & s1 & -> & Hdom). run.
  destruct (IH s1) as ([rest' errs2] & s2 & ->).
  { eapply Forall_impl; [exact Hlive|]. intros x Hx. simpl in Hx. by rewrite (live_dom _ _ _ Hdom). }
  run. eauto.
Qed.

(** ** EncodeList *)

Lemma call_Encode_eq (e : Encoder) (obj : Object) (overrides : list GroupVersion) (s : State) :
  call_Encode e obj overrides s =
  Some (Encode e obj overrides, log [EvEncode e obj overrides] s).
Proof. done. Qed.

Lemma EncodeList_at_eq (e : Encoder) (overrides : list GroupVersion) (obj : Object) (s : State) :
  EncodeList_at e overrides obj s =
  match Encode e obj overrides with
  | (_, Some err) => Some ((obj, [err]), log [EvEncode e obj overrides] s)
  | (data, None) =>
      let p := fresh (dom (heap s)) in
      Some ((ptrUnknown p, []),
            {| heap := <[p := {| UTypeMeta := zeroTypeMeta; Raw := data |}]> (heap s);
               trace := trace s ++ [EvEncode e obj overrides] |})
  end.
Proof.
  unfold EncodeList_at. run. rewrite call_Encode_eq. run.
  by destruct (Encode e obj overrides) as [data [err|]].
Qed.

Lemma failures_cons (e : Encoder) (overrides : list GroupVersion)
    (obj : Object) (objects : list Object) :
  failures e overrides (obj :: objects) =
  match (Encode e obj overrides).2 with
  | Some err => err :: failures e overrides objects
  | None => failures e overrides objects
  end.
Proof. done. Qed.

Lemma EncodeList_each (e : Encoder) (overrides : list GroupVersion)
    (objects : list Object) (s : State) :
  ∃ objects' s',
    for_each_position (EncodeList_at e overrides) objects s =
      Some ((objects', failures e overrides objects), s') ∧
    trace s' = trace s ++ map (λ obj, EvEncode e obj overrides) objects ∧
    heap s ⊆ heap s' ∧
    Forall2 (λ obj obj',
      match Encode e obj overrides with
      | (_, Some _) => obj' = obj
      | (data, None) =>
          ∃ p, obj' = ptrUnknown p ∧ heap s !! p = None ∧
               heap s' !! p = Some {| UTypeMeta := zeroTypeMeta; Raw := data |}
      end) objects objects'.
Proof.
  revert s. induction objects as [|obj objects IH]; intros s.
  - exists [], s. simpl. rewrite app_nil_r. by repeat split.
  - rewrite failures_cons. cbn [for_each_position]. run. rewrite EncodeList_at_eq.
    destruct (Encode e obj overrides) as [data [err|]] eqn:Henc; cbv zeta; run.
    + destruct (IH (log [EvEncode e obj overrides] s)) as (rest' & s' & -> & Htr & Hsub & Hrest).
      run. exists (obj :: rest'), s'. split; [done|].
      split; [by rewrite Htr; simpl; rewrite <- app_assoc|].
      split; [done|]. constructor; [by rewrite Henc|done].
    + set (p := fresh (dom (heap s))).
      set (env := {| UTypeMeta := zeroTypeMeta; Raw := data |}).
      set (s1 := Build_State _ _).
      assert (Hp : heap s !! p = None) by apply not_elem_of_dom, is_fresh.
      simpl.
      destruct (IH s1) as (rest' & s' & -> & Htr & Hsub & Hrest).
      run. exists (ptrUnknown p :: rest'), s'. split; [done|].
      split; [by rewrite Htr; simpl; rewrite <- app_assoc|].
      assert (Hsub1 : heap s ⊆ heap s1) by by apply insert_subseteq.
      split; [by etrans|]. constructor.
      * rewrite Henc. exists p. repeat split; [done|].
        eapply lookup_weaken; [|exact Hsub]. apply lookup_insert_eq.
      * eapply Forall2_impl; [exact Hrest|]. intros x y. simpl.
        destruct (Encode e x overrides) as [data' [err'|]]; [done|].
        intros (q & -> & Hq & Hq'). exists q. repeat split; [|done].
        by eapply lookup_weaken_None.
Qed.

Lemma NewAggregate_None {E : Type} (errs : list E) : NewAggregate errs = None ↔ errs = [].
Proof. by destruct errs. Qed.

Lemma failures_nil (e : Encoder) (overrides : list GroupVersion) (objects : list Object) :
  failures e overrides objects = [] ↔ Forall (λ obj, (Encode e obj overrides).2 = None) objects.
Proof.
  unfold failures. induction objects as [|obj objects IH]; simpl; [done|].
  rewrite Forall_cons. destruct (Encode e obj overrides).2 as [err|]; simpl.
  - split; [done|]. by intros [? _].
  - rewrite IH. split; [done|]. by intros [_ ?].
Qed.

Lemma EncodeList_outcome (e : Encoder) (overrides : list GroupVersion)
    (objects : list Object) (s : State) :
  ∃ objects' s',
    EncodeList e objects overrides s =
      Some ((objects', NewAggregate (failures e overrides objects)), s') ∧
    trace s' = trace s ++ map (λ obj, EvEncode e obj overrides) objects ∧
    Forall2 (λ obj obj',
      match Encode e obj overrides with
      | (_, Some _) => obj' = obj
      | (data, None) =>
          ∃ p, obj' = ptrUnknown p ∧ heap s !! p = None ∧
               heap s' !! p = Some {| UTypeMeta := zeroTypeMeta; Raw := data |}
      end) objects objects' ∧
    (failures e overrides objects ≠ [] →
     NewAggregate (failures e overrides objects) = Some (failures e overrides objects)) ∧
    (NewAggregate (failures e overrides objects) = None ↔
     Forall (λ obj, (Encode e obj overrides).2 = None) objects).
Proof.
  destruct (EncodeList_each e overrides objects s) as (objects' & s' & Hrun & Htr & _ & Hpos).
  exists objects', s'. rewrite EncodeList_visits. run. rewrite Hrun. run.
  repeat split; try done.
  - by destruct (failures e overrides objects).
  - intros Hagg%NewAggregate_None. by apply failures_nil.
  - intros Hall. by apply NewAggregate_None, failures_nil.
Qed.

(** C3, amended: [EncodeList] asks the encoder for every position in order.
    Where the encoder succeeds the position receives a new envelope that
    carries the raw bytes and no metadata; where it fails the position keeps
    its value and the encoder's error is recorded as it was returned,
    without a position or an object attached.  The result is the aggregate
    of the recorded errors: one entry per failing position, in position
    order, and no error at all exactly when no position failed. *)
Theorem EncodeList_records_failures (e : Encoder) (overrides : list GroupVersion)
    (objects : list Object) (s : State) :
  ∃ objects' s',
    EncodeList e objects overrides s =
      Some ((objects', NewAggregate (failures e overrides objects)), s') ∧
    trace s' = trace s ++ map (λ obj, EvEncode e obj overrides) objects ∧
    Forall2 (λ obj obj',
      match Encode e obj overrides with
      | (_, Some _) => obj' = obj
      | (data, None) =>
          ∃ p, obj' = ptrUnknown p ∧ heap s !! p = None ∧
               heap s' !! p = Some {| UTypeMeta := zeroTypeMeta; Raw := data |}
      end) objects objects' ∧
    (failures e overrides objects ≠ [] →
     NewAggregate (failures e overrides objects) = Some (failures e overrides objects)) ∧
    (NewAggregate (failures e overrides objects) = None ↔
     Forall (λ obj, (Encode e obj overrides).2 = None) objects).
Proof. apply EncodeList_outcome. Qed.

(** C4: in both loops every position is visited once, in order, whatever
    happened at the positions before it, and the errors of all positions come
    back together at the end.  [EncodeList] always returns, having asked the
    encoder once for every position, and [DecodeList] returns whenever every
    [*Unknown] of the collection points to an envelope: an error at one
    position ends neither of them. *)
Theorem batch_visits_every_position (e : Encoder) (overrides : list GroupVersion)
    (decoders : list Decoder) (objects : list Object) (s : State) :
  EncodeList e objects overrides s =
    ('(objects', errs) <- for_each_position (EncodeList_at e overrides) objects ;
     ret (objects', NewAggregate errs)) s ∧
  DecodeList objects decoders s =
    for_each_position (DecodeList_at decoders) objects s ∧
  (∃ r s', EncodeList e objects overrides s = Some (r, s') ∧
           trace s' = trace s ++ map (λ obj, EvEncode e obj overrides) objects) ∧
  (Forall (live (heap s)) objects →
   ∃ r s', DecodeList objects decoders s = Some (r, s')).
Proof.
  split; [apply EncodeList_visits|]. split; [apply DecodeList_visits|]. split.
  - destruct (EncodeList_outcome e overrides objects s)
      as (objects' & s' & Hrun & Htr & _). eauto.
  - apply DecodeList_returns.
Qed.

(** C5: [EncodeList] and [DecodeList] hand back a collection of the length
    they were given, position for position, and both do return one (the
    latter when every [*Unknown] points to an envelope).  After [EncodeList]
    each position holds what its own object led to: the object itself where
    the encoder failed on it, a new envelope with the bytes of that object
    where it succeeded.  After [DecodeList] each position holds what the
    visit of its own object produced, in the state that the positions before
    it left, between the results of the positions before and after it.  A
    position of [DecodeList] that does not hold a [*Unknown] keeps its value:
    the loop passes from the positions before it to those after it with
    nothing recorded and nothing touched. *)
Theorem batch_preserves_positions (e : Encoder) (overrides : list GroupVersion)
    (decoders : list Decoder) (objects : list Object) (s : State) :
  (∃ objects' agg s', EncodeList e objects overrides s = Some ((objects', agg), s') ∧
                      length objects' = length objects ∧
                      Forall2 (λ obj obj',
                        match Encode e obj overrides with
                        | (_, Some _) => obj' = obj
                        | (data, None) =>
                            ∃ p, obj' = ptrUnknown p ∧ heap s !! p = None ∧
                                 heap s' !! p =
                                   Some {| UTypeMeta := zeroTypeMeta; Raw := data |}
                        end) objects objects') ∧
  (Forall (live (heap s)) objects →
   ∃ objects' errs s', DecodeList objects decoders s = Some ((objects', errs), s') ∧
                       length objects' = length objects ∧
                       ∀ i obj, objects !! i = Some obj → asUnknown obj = None →
                                objects' !! i = Some obj) ∧
  (∀ pre obj post, objects = pre ++ obj :: post → asUnknown obj = None →
     DecodeList objects decoders s =
     ('(pre', errs1) <- DecodeList pre decoders ;
      '(post', errs3) <- DecodeList post decoders ;
      ret (pre' ++ obj :: post', errs1 ++ errs3)) s) ∧
  (∀ pre obj post, objects = pre ++ obj :: post →
     DecodeList objects decoders s =
     ('(pre', errs1) <- DecodeList pre decoders ;
      '(obj', errs2) <- DecodeList_at decoders obj ;
      '(post', errs3) <- DecodeList post decoders ;
      ret (pre' ++ obj' :: post', errs1 ++ errs2 ++ errs3)) s) ∧
  (∀ pre pre' errs1 s1,
     DecodeList pre decoders s = Some ((pre', errs1), s1) → length pre' = length pre).
Proof.
  split; [|split; [|split; [|split]]].
  - destruct (EncodeList_outcome e overrides objects s)
      as (objects' & s' & Hrun & _ & Hpos & _).
    exists objects', (NewAggregate (failures e overrides objects)), s'.
    split; [done|]. split; [|done]. symmetry. by eapply Forall2_length.
  - intros Hlive.
    destruct (DecodeList_returns decoders objects s Hlive) as ([objects' errs] & s' & Hrun).
    exists objects', errs, s'. split; [done|].
    split; [by eapply DecodeList_length|].
    intros i obj Hi Hobj. apply list_elem_of_split_length in Hi as (pre & post & -> & ->).
    revert Hrun. rewrite DecodeList_position. run.
    destruct (DecodeList pre decoders s) as [[[pre' errs1] s1]|] eqn:Hpre; [|done]. run.
    unfold DecodeList_at. rewrite Hobj. run.
    destruct (DecodeList post decoders s1) as [[[post' errs3] s3]|]; [|done]. run.
    intros [= <- <- <-]. apply list_lookup_middle. symmetry. by eapply DecodeList_length.
  - intros pre obj post -> Hobj. rewrite DecodeList_position. run.
    destruct (DecodeList pre decoders s) as [[[pre' errs1] s1]|]; [|done]. run.
    unfold DecodeList_at. rewrite Hobj. by run.
  - intros pre obj post ->. apply DecodeList_position.
  - intros pre pre' errs1 s1. apply DecodeList_length.
Qed.

(** ** objectTyperToTyper *)

Lemma call_ObjectKind_eq (t : ObjectTyper) (obj : Object) (s : State) :
  call_ObjectKind t obj s = Some (ObjectKind t obj, log [EvObjectKind t obj] s).
Proof. done. Qed.

Lemma call_ObjectKinds_eq (t : ObjectTyper) (obj : Object) (s : State) :
  call_ObjectKinds t obj s = Some (ObjectKinds t obj, log [EvObjectKinds t obj] s).
Proof. done. Qed.

Lemma call_IsUnversioned_eq (t : ObjectTyper) (obj : Object) (s : State) :
  call_IsUnversioned t obj s = Some (IsUnversioned t obj, log [EvIsUnversioned t obj] s).
Proof. done. Qed.

(** C6: the adapter passes on the failure of the kind lookup, without asking
    for the unversioned status.  When the kind lookup succeeds and the
    unversioned lookup answers "unknown", it fails with an error built from
    the object's type, and returns neither a kind nor an unversioned value of
    the typer.  Otherwise it returns the kind and the unversioned flag. *)
Theorem objectTyperToTyper_ObjectKind_cases (t : objectTyperToTyper) (obj : Object)
    (s : State) :
  (∀ gvk err, ObjectKind (typer t) obj = (gvk, Some err) →
     objectTyperToTyper_ObjectKind t obj s =
     Some ((None, false, Some err), log [EvObjectKind (typer t) obj] s)) ∧
  (∀ gvk b, ObjectKind (typer t) obj = (gvk, None) →
     IsUnversioned (typer t) obj = (b, false) →
     objectTyperToTyper_ObjectKind t obj s =
     Some ((None, false,
            Some (Errorf ("typer returned a kind for " +:+ TypeOf obj +:+
              ", but then reported it was not in the scheme with IsUnversioned"))),
           log [EvObjectKind (typer t) obj; EvIsUnversioned (typer t) obj] s)) ∧
  (∀ gvk b, ObjectKind (typer t) obj = (gvk, None) →
     IsUnversioned (typer t) obj = (b, true) →
     objectTyperToTyper_ObjectKind t obj s =
     Some ((Some gvk, b, None),
           log [EvObjectKind (typer t) obj; EvIsUnversioned (typer t) obj] s)).
Proof.
  unfold objectTyperToTyper_ObjectKind. repeat split.
  - intros gvk err Hk. run. rewrite call_ObjectKind_eq. run. by rewrite Hk.
  - intros gvk b Hk Hu. run. rewrite call_ObjectKind_eq. run. rewrite Hk. run.
    rewrite call_IsUnversioned_eq. run. rewrite Hu. simpl. run. by rewrite log_log.
  - intros gvk b Hk Hu. run. rewrite call_ObjectKind_eq. run. rewrite Hk. run.
    rewrite call_IsUnversioned_eq. run. rewrite Hu. simpl. run. by rewrite log_log.
Qed.

(** ** MultiObjectTyper *)

Lemma ObjectKind_range_first (pre post : list ObjectTyper) (t : ObjectTyper) (obj : Object)
    (gvk gvk0 : GroupVersionKind) (err0 : option error) (s : State) :
  Forall (λ x, is_Some (ObjectKind x obj).2) pre →
  ObjectKind t obj = (gvk, None) →
  MultiObjectTyper_ObjectKind_range (pre ++ t :: post) obj gvk0 err0 s =
  Some ((gvk, None), log (map (λ x, EvObjectKind x obj) (pre ++ [t])) s).
Proof.
  intros Hpre Ht. revert gvk0 err0 s.
  induction Hpre as [|x pre [err Hx] Hpre IH]; intros gvk0 err0 s; simpl.
  - run. rewrite call_ObjectKind_eq. run. by rewrite Ht.
  - run. rewrite call_ObjectKind_eq. run.
    destruct (ObjectKind x obj) as [gvk1 err1]. simpl in Hx. subst err1.
    rewrite IH. by rewrite log_log.
Qed.

Lemma ObjectKind_range_last (pre : list ObjectTyper) (t : ObjectTyper) (obj : Object)
    (gvk0 : GroupVersionKind) (err0 : option error) (s : State) :
  Forall (λ x, is_Some (ObjectKind x obj).2) (pre ++ [t]) →
  MultiObjectTyper_ObjectKind_range (pre ++ [t]) obj gvk0 err0 s =
  Some (ObjectKind t obj, log (map (λ x, EvObjectKind x obj) (pre ++ [t])) s).
Proof.
  revert gvk0 err0 s. induction pre as [|x pre IH]; intros gvk0 err0 s; simpl.
  - intros [[err Ht] _]%Forall_cons. run. rewrite call_ObjectKind_eq. run.
    destruct (ObjectKind t obj) as [gvk1 err1]. simpl in Ht. by subst err1.
  - intros [[err Hx] Hpre]%Forall_cons. run. rewrite call_ObjectKind_eq. run.
    destruct (ObjectKind x obj) as [gvk1 err1]. simpl in Hx. subst err1.
    rewrite IH by done. by rewrite log_log.
Qed.

Lemma ObjectKinds_range_first (pre post : list ObjectTyper) (t : ObjectTyper) (obj : Object)
    (gvks gvks0 : list GroupVersionKind) (err0 : option error) (s : State) :
  Forall (λ x, is_Some (ObjectKinds x obj).2) pre →
  ObjectKinds t obj = (gvks, None) →
  MultiObjectTyper_ObjectKinds_range (pre ++ t :: post) obj gvks0 err0 s =
  Some ((gvks, None), log (map (λ x, EvObjectKinds x obj) (pre ++ [t])) s).
Proof.
  intros Hpre Ht. revert gvks0 err0 s.
  induction Hpre as [|x pre [err Hx] Hpre IH]; intros gvks0 err0 s; simpl.
  - run. rewrite call_ObjectKinds_eq. run. by rewrite Ht.
  - run. rewrite call_ObjectKinds_eq. run.
    destruct (ObjectKinds x obj) as [gvks1 err1]. simpl in Hx. subst err1.
    rewrite IH. by rewrite log_log.
Qed.

Lemma ObjectKinds_range_last (pre : list ObjectTyper) (t : ObjectTyper) (obj : Object)
    (gvks0 : list GroupVersionKind) (err0 : option error) (s : State) :
  Forall (λ x, is_Some (ObjectKinds x obj).2) (pre ++ [t]) →
  MultiObjectTyper_ObjectKinds_range (pre ++ [t]) obj gvks0 err0 s =
  Some (ObjectKinds t obj, log (map (λ x, EvObjectKinds x obj) (pre ++ [t])) s).
Proof.
  revert gvks0 err0 s. induction pre as [|x pre IH]; intros gvks0 err0 s; simpl.
  - intros [[err Ht] _]%Forall_cons. run. rewrite call_ObjectKinds_eq. run.
    destruct (ObjectKinds t obj) as [gvks1 err1]. simpl in Ht. by subst err1.
  - intros [[err Hx] Hpre]%Forall_cons. run. rewrite call_ObjectKinds_eq. run.
    destruct (ObjectKinds x obj) as [gvks1 err1]. simpl in Hx. subst err1.
    rewrite IH by done. by rewrite log_log.
Qed.

(** C7: [ObjectKind] and [ObjectKinds] of a [MultiObjectTyper] ask the
    sources in list order.  The answer of the first source that succeeds is
    returned, and the sources after it are not asked.  When every source of a
    non-empty list fails, all are asked and the result of the last one, with
    its error, is returned. *)
Theorem MultiObjectTyper_first_success (obj : Object) (s : State) :
  (∀ pre t post gvk,
     Forall (λ x, is_Some (ObjectKind x obj).2) pre →
     ObjectKind t obj = (gvk, None) →
     MultiObjectTyper_ObjectKind (pre ++ t :: post) obj s =
     Some ((gvk, None), log (map (λ x, EvObjectKind x obj) (pre ++ [t])) s)) ∧
  (∀ pre t,
     Forall (λ x, is_Some (ObjectKind x obj).2) (pre ++ [t]) →
     MultiObjectTyper_ObjectKind (pre ++ [t]) obj s =
     Some (ObjectKind t obj, log (map (λ x, EvObjectKind x obj) (pre ++ [t])) s)) ∧
  (∀ pre t post gvks,
     Forall (λ x, is_Some (ObjectKinds x obj).2) pre →
     ObjectKinds t obj = (gvks, None) →
     MultiObjectTyper_ObjectKinds (pre ++ t :: post) obj s =
     Some ((gvks, None), log (map (λ x, EvObjectKinds x obj) (pre ++ [t])) s)) ∧
  (∀ pre t,
     Forall (λ x, is_Some (ObjectKinds x obj).2) (pre ++ [t]) →
     MultiObjectTyper_ObjectKinds (pre ++ [t]) obj s =
     Some (ObjectKinds t obj, log (map (λ x, EvObjectKinds x obj) (pre ++ [t])) s)).
Proof.
  repeat split.
  - intros pre t post gvk. apply ObjectKind_range_first.
  - intros pre t. apply ObjectKind_range_last.
  - intros pre t post gvks. apply ObjectKinds_range_first.
  - intros pre t. apply ObjectKinds_range_last.
Qed.

(** C8: [IsUnversioned] of a [MultiObjectTyper] asks the sources in order
    and returns the value of the first one that reports it knows, also when
    that value is false; the sources after it are not asked.  When no source
    knows, the result is (false, false), whatever values came with the
    "unknown" answers. *)
Theorem MultiObjectTyper_IsUnversioned_first_known (obj : Object) (s : State) :
  (∀ pre t post b,
     Forall (λ x, (IsUnversioned x obj).2 = false) pre →
     IsUnversioned t obj = (b, true) →
     MultiObjectTyper_IsUnversioned (pre ++ t :: post) obj s =
     Some ((b, true), log (map (λ x, EvIsUnversioned x obj) (pre ++ [t])) s)) ∧
  (∀ m,
     Forall (λ x, (IsUnversioned x obj).2 = false) m →
     MultiObjectTyper_IsUnversioned m obj s =
     Some ((false, false), log (map (λ x, EvIsUnversioned x obj) m) s)).
Proof.
  split.
  - intros pre t post b Hpre Ht. revert s.
    induction Hpre as [|x pre Hx Hpre IH]; intros s; simpl.
    + run. rewrite call_IsUnversioned_eq. run. by rewrite Ht.
    + run. rewrite call_IsUnversioned_eq. run.
      destruct (IsUnversioned x obj) as [b1 ok]. simpl in Hx. subst ok.
      rewrite IH. by rewrite log_log.
  - intros m Hm. revert s. induction Hm as [|x m Hx Hm IH]; intros s; simpl.
    + by rewrite log_nil.
    + run. rewrite call_IsUnversioned_eq. run.
      destruct (IsUnversioned x obj) as [b1 ok]. simpl in Hx. subst ok.
      rewrite IH. by rewrite log_log.
Qed.

(** C9: a [MultiObjectTyper] without sources answers [ObjectKind] with the
    zero [GroupVersionKind] and a nil error, and [ObjectKinds] with a nil
    list and a nil error, asking nobody: there is no last error to return. *)
Theorem MultiObjectTyper_no_sources (obj : Object) (s : State) :
  MultiObjectTyper_ObjectKind [] obj s = Some ((zeroGroupVersionKind, None), s) ∧
  MultiObjectTyper_ObjectKinds [] obj s = Some (([], None), s).
Proof. done. Qed.

End Properties.

(** * The properties on the concrete collaborators *)

Lemma DecodeList_full_decode_witness :
  (DecodeList [ptrStruct "*api.Node" 9] [decForeign; decPods; decStrict] exState =
     Some (([ptrStruct "*api.Node" 9], []), exState) ∧
   DecodeList [ptrStruct "*api.Node" 9] [decForeign; decStrict; decPods] exState =
     Some (([ptrStruct "*api.Node" 9], []), exState) ∧
   heap exState !! 1%positive = Some (envelope [x7b; x7d]) ∧
   Forall (declines [x7b; x7d]) [decForeign]) ∧
  DecodeList [ptrStruct "*api.Node" 9; ptrUnknown 1; ptrUnknown 2]
      [decForeign; decPods; decStrict] exState =
    Some (([ptrStruct "*api.Node" 9; ptrStruct "*api.Pod" 7; ptrStruct "*api.Pod" 7], []),
          log [EvDecode decForeign [x7b; x7d]; EvDecode decPods [x7b; x7d];
               EvDecode decForeign [x5b; x5d]; EvDecode decPods [x5b; x5d]] exState) ∧
  DecodeList [ptrStruct "*api.Node" 9; ptrUnknown 1; ptrUnknown 2]
      [decForeign; decStrict; decPods] exState =
    Some (([ptrStruct "*api.Node" 9; ptrUnknown 1; ptrUnknown 2], [errMalformed; errMalformed]),
          log [EvDecode decForeign [x7b; x7d]; EvDecode decStrict [x7b; x7d];
               EvDecode decForeign [x5b; x5d]; EvDecode decStrict [x5b; x5d]] exState).
Proof.
  assert (Hforeign : Forall (declines [x7b; x7d]) [decForeign]).
  { repeat constructor. }
  split; [by repeat split|]. split.
  - etrans.
    + exact (proj1 (proj2 (DecodeList_full_decode
        [ptrStruct "*api.Node" 9] [ptrUnknown 2] 1 (envelope [x7b; x7d])
        [decForeign] [decStrict] decPods exState exState [ptrStruct "*api.Node" 9] []
        eq_refl eq_refl Hforeign)) _ eq_refl).
    + vm_compute. reflexivity.
  - etrans.
    + exact (proj2 (proj2 (DecodeList_full_decode
        [ptrStruct "*api.Node" 9] [ptrUnknown 2] 1 (envelope [x7b; x7d])
        [decForeign] [decPods] decStrict exState exState [ptrStruct "*api.Node" 9] []
        eq_refl eq_refl Hforeign)) _ _ eq_refl eq_refl).
    + vm_compute. reflexivity.
Defined.

Lemma DecodeList_metadata_fallback_witness :
  (heap exState !! 1%positive = Some (envelope [x7b; x7d]) ∧
   Forall (declines [x7b; x7d]) [decForeign; decScribble; decMeta; decForeign] ∧
   Forall (declines [x7b; x7d]) [decForeign]) ∧
  DecodeList [ptrStruct "*api.Node" 9; ptrUnknown 1; ptrUnknown 2]
      [decForeign; decScribble; decMeta; decForeign] exState =
    Some (([ptrStruct "*api.Node" 9; ptrUnknown 1; ptrUnknown 2], []),
          {| heap := <[1%positive := {| UTypeMeta := podMeta; Raw := [x7b; x7d] |}]>
                       (<[2%positive := {| UTypeMeta := podMeta; Raw := [x5b; x5d] |}]> ∅);
             trace := [EvDecode decForeign [x7b; x7d]; EvDecode decScribble [x7b; x7d];
                       EvDecode decMeta [x7b; x7d]; EvDecode decForeign [x7b; x7d];
                       EvDecodeInto decForeign [x7b; x7d] 1;
                       EvDecodeInto decScribble [x7b; x7d] 1;
                       EvDecodeInto decMeta [x7b; x7d] 1;
                       EvDecode decForeign [x5b; x5d]; EvDecode decScribble [x5b; x5d];
                       EvDecode decMeta [x5b; x5d]; EvDecode decForeign [x5b; x5d];
                       EvDecodeInto decForeign [x5b; x5d] 2;
                       EvDecodeInto decScribble [x5b; x5d] 2;
                       EvDecodeInto decMeta [x5b; x5d] 2] |}) ∧
  DecodeList [ptrStruct "*api.Node" 9; ptrUnknown 1; ptrUnknown 2] [decForeign] exState =
    Some (([ptrStruct "*api.Node" 9; ptrUnknown 1; ptrUnknown 2], []),
          log [EvDecode decForeign [x7b; x7d]; EvDecodeInto decForeign [x7b; x7d] 1;
               EvDecode decForeign [x5b; x5d]; EvDecodeInto decForeign [x5b; x5d] 2]
            exState).
Proof.
  assert (Hall : Forall (declines [x7b; x7d]) [decForeign; decScribble; decMeta; decForeign]).
  { repeat constructor. }
  assert (Hforeign : Forall (declines [x7b; x7d]) [decForeign]).
  { repeat constructor. }
  split; [by repeat split|]. split.
  - etrans.
    + exact (proj1 (proj2 (DecodeList_metadata_fallback
        [ptrStruct "*api.Node" 9] [ptrUnknown 2] 1 (envelope [x7b; x7d])
        [decForeign; decScribble; decMeta; decForeign] exState exState
        [ptrStruct "*api.Node" 9] [] eq_refl eq_refl Hall))
        [decForeign; decScribble] decMeta [decForeign] _ _ _ eq_refl eq_refl eq_refl).
    + vm_compute. reflexivity.
  - etrans.
    + exact (proj1 (proj2 (proj2 (DecodeList_metadata_fallback
        [ptrStruct "*api.Node" 9] [ptrUnknown 2] 1 (envelope [x7b; x7d])
        [decForeign] exState exState
        [ptrStruct "*api.Node" 9] [] eq_refl eq_refl Hforeign)) _ _ eq_refl)).
    + vm_compute. reflexivity.
Defined.

(** C2 as stated fails: the only decoder answers "kind not registered" to
    the full decode and then fails on the metadata, so no decoder succeeds
    and no error is recorded; the position still refers to the envelope, but
    the envelope now carries what the failed attempt wrote and is not the
    value it was before the call. *)
Lemma DecodeList_failed_metadata_writes :
  Forall (declines [x7b; x7d]) [decScribble] ∧
  (exDecodeInto decScribble [x7b; x7d] (envelope [x7b; x7d])).2 = Some errMalformed ∧
  DecodeList [ptrUnknown 1] [decScribble] exState =
    Some (([ptrUnknown 1], []),
          poke 1 {| UTypeMeta := junkMeta; Raw := [x7b; x7d] |}
            (log [EvDecode decScribble [x7b; x7d];
                  EvDecodeInto decScribble [x7b; x7d] 1] exState)) ∧
  heap exState !! 1%positive = Some {| UTypeMeta := zeroTypeMeta; Raw := [x7b; x7d] |} ∧
  heap (poke 1 {| UTypeMeta := junkMeta; Raw := [x7b; x7d] |}
          (log [EvDecode decScribble [x7b; x7d];
                EvDecodeInto decScribble [x7b; x7d] 1] exState)) !! 1%positive =
    Some {| UTypeMeta := junkMeta; Raw := [x7b; x7d] |} ∧
  {| UTypeMeta := junkMeta; Raw := [x7b; x7d] |} ≠
    {| UTypeMeta := zeroTypeMeta; Raw := [x7b; x7d] |}.
Proof.
  split; [by repeat constructor|]. split; [done|].
  split; [vm_compute; reflexivity|]. split; [done|]. split; [done|]. done.
Qed.

(** C3 as stated fails: two positions that hold objects of different types
    fail with the same encoder error, and the two recorded entries are that
    same error twice, so no reading of an entry gives back its position or a
    description that tells the two objects apart. *)
Lemma EncodeList_errors_carry_no_tag :
  EncodeList brokenEncoder [ptrStruct "*api.Secret" 5; ptrStruct "*api.Node" 6] [] exState =
    Some (([ptrStruct "*api.Secret" 5; ptrStruct "*api.Node" 6],
           Some [errUnsupported; errUnsupported]),
          log [EvEncode brokenEncoder (ptrStruct "*api.Secret" 5) [];
               EvEncode brokenEncoder (ptrStruct "*api.Node" 6) []] exState) ∧
  ¬ ∃ (describe : Object → string) tag,
      describe (ptrStruct "*api.Secret" 5) ≠ describe (ptrStruct "*api.Node" 6) ∧
      tagged describe tag [ptrStruct "*api.Secret" 5; ptrStruct "*api.Node" 6] [0; 1]
        [errUnsupported; errUnsupported].
Proof.
  split; [vm_compute; reflexivity|].
  intros (describe & tag & Hdiff & Htag). unfold tagged in Htag.
  apply Forall2_cons in Htag as [H0 Htag]. apply Forall2_cons in Htag as [H1 _].
  destruct H0 as [H0|(obj0 & Hobj0 & H0)], H1 as [H1|(obj1 & Hobj1 & H1)];
    simpl in *; congruence.
Qed.

Lemma EncodeList_records_failures_witness :
  failures jsonEncoder [] [ptrUnknown 1; ptrStruct "*api.Secret" 5; ptrStruct "*api.Pod" 6]
    ≠ [] ∧
  ∃ objects' s',
    EncodeList jsonEncoder [ptrUnknown 1; ptrStruct "*api.Secret" 5; ptrStruct "*api.Pod" 6]
      [] exState = Some ((objects', Some [errUnsupported]), s') ∧
    objects' !! 1 = Some (ptrStruct "*api.Secret" 5).
Proof.
  assert (Hfail : failures jsonEncoder []
            [ptrUnknown 1; ptrStruct "*api.Secret" 5; ptrStruct "*api.Pod" 6] ≠ []) by done.
  split; [done|].
  destruct (EncodeList_records_failures (Co:=exCollaborators) jsonEncoder []
              [ptrUnknown 1; ptrStruct "*api.Secret" 5; ptrStruct "*api.Pod" 6] exState)
    as (objects' & s' & Hrun & _ & Hpos & Hsome & _).
  exists objects', s'. split.
  - rewrite Hrun. by rewrite (Hsome Hfail).
  - apply Forall2_cons_inv_l in Hpos as (obj0 & rest & _ & Hpos & ->).
    apply Forall2_cons_inv_l in Hpos as (obj1 & rest' & Hobj1 & _ & ->).
    simpl in Hobj1. by subst obj1.
Defined.

Lemma batch_visits_every_position_witness :
  Forall (live (heap exState)) [ptrUnknown 1; ptrStruct "*api.Node" 9; ptrUnknown 2] ∧
  ∃ r s',
    DecodeList [ptrUnknown 1; ptrStruct "*api.Node" 9; ptrUnknown 2] [decStrict] exState =
      Some (r, s') ∧
    r = ([ptrUnknown 1; ptrStruct "*api.Node" 9; ptrUnknown 2], [errMalformed; errMalformed]).
Proof.
  assert (Hlive : Forall (live (heap exState))
                    [ptrUnknown 1; ptrStruct "*api.Node" 9; ptrUnknown 2]).
  { repeat constructor. }
  split; [done|].
  destruct (proj2 (proj2 (proj2 (batch_visits_every_position (Co:=exCollaborators) jsonEncoder [] [decStrict]
              [ptrUnknown 1; ptrStruct "*api.Node" 9; ptrUnknown 2] exState))) Hlive)
    as (r & s' & Hrun).
  exists r, s'. split; [done|].
  revert Hrun. vm_compute. by intros [= <- _].
Defined.

Lemma batch_preserves_positions_witness :
  Forall (live (heap exState)) [ptrUnknown 1; ptrStruct "*api.Node" 9; ptrUnknown 2] ∧
  (∃ objects' errs s',
     DecodeList [ptrUnknown 1; ptrStruct "*api.Node" 9; ptrUnknown 2] [decPods] exState =
       Some ((objects', errs), s') ∧
     length objects' = 3 ∧ objects' !! 1 = Some (ptrStruct "*api.Node" 9)) ∧
  DecodeList [ptrUnknown 1; ptrStruct "*api.Node" 9; ptrUnknown 2] [decPods] exState =
    Some (([ptrStruct "*api.Pod" 7; ptrStruct "*api.Node" 9; ptrStruct "*api.Pod" 7], []),
          log [EvDecode decPods [x7b; x7d]; EvDecode decPods [x5b; x5d]] exState) ∧
  DecodeList [ptrUnknown 1; ptrStruct "*api.Node" 9; ptrUnknown 2] [decStrict] exState =
    Some (([ptrUnknown 1; ptrStruct "*api.Node" 9; ptrUnknown 2],
           [errMalformed; errMalformed]),
          log [EvDecode decStrict [x7b; x7d]; EvDecode decStrict [x5b; x5d]] exState).
Proof.
  assert (Hlive : Forall (live (heap exState))
                    [ptrUnknown 1; ptrStruct "*api.Node" 9; ptrUnknown 2]).
  { repeat constructor. }
  pose proof (batch_preserves_positions (Co:=exCollaborators) jsonEncoder [] [decPods]
                [ptrUnknown 1; ptrStruct "*api.Node" 9; ptrUnknown 2] exState)
    as (_ & Hdec & Hskip & _).
  pose proof (batch_preserves_positions (Co:=exCollaborators) jsonEncoder [] [decStrict]
                [ptrUnknown 1; ptrStruct "*api.Node" 9; ptrUnknown 2] exState)
    as (_ & _ & _ & Hat & _).
  split; [done|]. split; [|split].
  - destruct (Hdec Hlive) as (objects' & errs & s' & Hrun & Hlen & Hkeep).
    exists objects', errs, s'. split; [done|]. split; [done|].
    by apply (Hkeep 1 (ptrStruct "*api.Node" 9)).
  - etrans.
    + exact (Hskip [ptrUnknown 1] (ptrStruct "*api.Node" 9) [ptrUnknown 2] eq_refl eq_refl).
    + vm_compute. reflexivity.
  - etrans.
    + exact (Hat [ptrUnknown 1; ptrStruct "*api.Node" 9] (ptrUnknown 2) [] eq_refl).
    + vm_compute. reflexivity.
Defined.

Lemma objectTyperToTyper_ObjectKind_cases_witness :
  objectTyperToTyper_ObjectKind {| typer := typClosed |} (ptrStruct "*api.Pod" 6) exState =
    Some ((None, false, Some errMalformed),
          log [EvObjectKind typClosed (ptrStruct "*api.Pod" 6)] exState) ∧
  objectTyperToTyper_ObjectKind {| typer := typBroken |} (ptrStruct "*api.Pod" 6) exState =
    Some ((None, false,
           Some (errText "typer returned a kind for *api.Pod, but then reported it was not in the scheme with IsUnversioned")),
          log [EvObjectKind typBroken (ptrStruct "*api.Pod" 6);
               EvIsUnversioned typBroken (ptrStruct "*api.Pod" 6)] exState) ∧
  objectTyperToTyper_ObjectKind {| typer := typStatus |} (ptrStruct "*api.Pod" 6) exState =
    Some ((Some statusKind, true, None),
          log [EvObjectKind typStatus (ptrStruct "*api.Pod" 6);
               EvIsUnversioned typStatus (ptrStruct "*api.Pod" 6)] exState).
Proof.
  split; [|split].
  - exact (proj1 (objectTyperToTyper_ObjectKind_cases (Co:=exCollaborators) {| typer := typClosed |}
                    (ptrStruct "*api.Pod" 6) exState) podKind errMalformed eq_refl).
  - exact (proj1 (proj2 (objectTyperToTyper_ObjectKind_cases (Co:=exCollaborators) {| typer := typBroken |}
                    (ptrStruct "*api.Pod" 6) exState)) podKind false eq_refl eq_refl).
  - exact (proj2 (proj2 (objectTyperToTyper_ObjectKind_cases (Co:=exCollaborators) {| typer := typStatus |}
                    (ptrStruct "*api.Pod" 6) exState)) statusKind true eq_refl eq_refl).
Defined.

Lemma MultiObjectTyper_first_success_witness :
  (Forall (λ x, is_Some (ObjectKind x nilObject).2) [typNone; typClosed] ∧
   Forall (λ x, is_Some (ObjectKinds x nilObject).2) [typNone; typClosed]) ∧
  MultiObjectTyper_ObjectKind [typNone; typClosed; typStatus; typPods] nilObject exState =
    Some ((statusKind, None),
          log [EvObjectKind typNone nilObject; EvObjectKind typClosed nilObject;
               EvObjectKind typStatus nilObject] exState) ∧
  MultiObjectTyper_ObjectKind [typNone; typClosed] nilObject exState =
    Some ((podKind, Some errMalformed),
          log [EvObjectKind typNone nilObject; EvObjectKind typClosed nilObject] exState) ∧
  MultiObjectTyper_ObjectKinds [typNone; typClosed; typPods; typStatus] nilObject exState =
    Some (([podKind; statusKind], None),
          log [EvObjectKinds typNone nilObject; EvObjectKinds typClosed nilObject;
               EvObjectKinds typPods nilObject] exState) ∧
  MultiObjectTyper_ObjectKinds [typNone; typClosed] nilObject exState =
    Some (([podKind], Some errMalformed),
          log [EvObjectKinds typNone nilObject; EvObjectKinds typClosed nilObject] exState).
Proof.
  assert (Hkind : Forall (λ x, is_Some (ObjectKind x nilObject).2) [typNone; typClosed]).
  { repeat constructor; by eexists. }
  assert (Hkinds : Forall (λ x, is_Some (ObjectKinds x nilObject).2) [typNone; typClosed]).
  { repeat constructor; by eexists. }
  pose proof (MultiObjectTyper_first_success (Co:=exCollaborators) nilObject exState)
    as (Hfirst & Hlast & Hfirsts & Hlasts).
  split; [done|]. split; [|split; [|split]].
  - exact (Hfirst [typNone; typClosed] typStatus [typPods] statusKind Hkind eq_refl).
  - exact (Hlast [typNone] typClosed Hkind).
  - exact (Hfirsts [typNone; typClosed] typPods [typStatus] _ Hkinds eq_refl).
  - exact (Hlasts [typNone] typClosed Hkinds).
Defined.

Lemma MultiObjectTyper_IsUnversioned_first_known_witness :
  Forall (λ x, (IsUnversioned x nilObject).2 = false) [typNone; typClosed] ∧
  MultiObjectTyper_IsUnversioned [typNone; typClosed; typPods; typStatus] nilObject exState =
    Some ((false, true),
          log [EvIsUnversioned typNone nilObject; EvIsUnversioned typClosed nilObject;
               EvIsUnversioned typPods nilObject] exState) ∧
  MultiObjectTyper_IsUnversioned [typNone; typClosed] nilObject exState =
    Some ((false, false),
          log [EvIsUnversioned typNone nilObject; EvIsUnversioned typClosed nilObject]
            exState).
Proof.
  assert (Hunknown : Forall (λ x, (IsUnversioned x nilObject).2 = false) [typNone; typClosed]).
  { by repeat constructor. }
  pose proof (MultiObjectTyper_IsUnversioned_first_known (Co:=exCollaborators) nilObject exState)
    as (Hfirst & Hnone).
  split; [done|]. split.
  - exact (Hfirst [typNone; typClosed] typPods [typStatus] false Hunknown eq_refl).
  - exact (Hnone [typNone; typClosed] Hunknown).
Defined.

(** * Further properties *)

Section MoreProperties.
Context {Co : Collaborators}.

Ltac run := repeat (progress (rewrite ?bind_eq, ?ret_eq; cbv beta iota)).

(** ** Footprints *)

Lemma writes_within_refl (ts : list addr) (s : State) : writes_within ts s s.
Proof. by repeat split. Qed.

Lemma writes_within_trans (ts : list addr) (s1 s2 s3 : State) :
  writes_within ts s1 s2 → writes_within ts s2 s3 → writes_within ts s1 s3.
Proof.
  intros (Hd1 & Hc1 & Ht1) (Hd2 & Hc2 & Ht2). split; [by rewrite Hd2|]. split.
  - intros q Hq. by rewrite Hc2, Hc1.
  - by etrans.
Qed.

Lemma writes_within_mono (ts ts' : list addr) (s s' : State) :
  ts ⊆ ts' → writes_within ts s s' → writes_within ts' s s'.
Proof.
  intros Hsub (Hd & Hc & Ht). split; [done|]. split; [|done].
  intros q Hq. apply Hc. intros Hin. by apply Hq, Hsub.
Qed.

Lemma writes_within_log (ts : list addr) (evs : list Event) (s : State) :
  writes_within ts s (log evs s).
Proof. split; [done|]. split; [done|]. by apply prefix_app_r. Qed.

Lemma writes_within_poke (t : addr) (u : Unknown) (s : State) :
  is_Some (heap s !! t) → writes_within [t] s (poke t u s).
Proof.
  intros Ht. split; [by apply dom_insert_lookup_L|]. split; [|done].
  intros q Hq. simpl. apply lookup_insert_ne. intros ->. apply Hq. by left.
Qed.

Lemma decodeListItem_full_inv (ds : list Decoder) (t : addr) (s s' : State)
    (r : option (Object * option error)) :
  decodeListItem_full t ds s = Some (r, s') →
  heap s' = heap s ∧ trace s `prefix_of` trace s' ∧
  (ds ≠ [] → is_Some (heap s !! t)) ∧
  match r with
  | None => True
  | Some (o, Some err) => o = nilObject ∧ IsNotRegisteredError err = false
  | Some (o, None) => ∃ d data, d ∈ ds ∧ Decode d data = (o, None)
  end.
Proof.
  revert s. induction ds as [|d ds IH]; intros s; simpl.
  - intros [= <- <-]. by repeat split.
  - run. unfold load at 1. destruct (heap s !! t) as [u|] eqn:Ht; [|done]. run.
    rewrite call_Decode_eq. run.
    destruct (Decode d (Raw u)) as [o [err|]] eqn:Hd.
    + destruct (IsNotRegisteredError err) eqn:Herr.
      * intros (Hh & Htr & _ & Hr)%IH. split; [done|]. split.
        { etrans; [|exact Htr]. by apply prefix_app_r. }
        split; [by eauto|].
        destruct r as [[o' [err'|]]|]; [done| |done].
        destruct Hr as (d' & data & Hin & Hdec). exists d', data. split; [by right|done].
      * run. intros [= <- <-]. split; [done|]. split; [by apply prefix_app_r|].
        split; [by eauto|]. done.
    + run. intros [= <- <-]. split; [done|]. split; [by apply prefix_app_r|].
      split; [by eauto|]. exists d, (Raw u). split; [by left|done].
Qed.

Lemma decodeListItem_meta_inv (ds : list Decoder) (t : addr) (s s' : State)
    (r : option (Object * option error)) :
  decodeListItem_meta t ds s = Some (r, s') →
  writes_within [t] s s' ∧ (ds ≠ [] → is_Some (heap s !! t)) ∧
  (r = None ∨ r = Some (ptrUnknown t, None)).
Proof.
  revert s. induction ds as [|d ds IH]; intros s; simpl.
  - intros [= <- <-]. split; [apply writes_within_refl|]. split; [done|by left].
  - run. unfold load at 1. destruct (heap s !! t) as [u|] eqn:Ht; [|done]. run.
    rewrite (call_DecodeInto_eq d (Raw u) t u s Ht). run.
    set (s1 := poke t _ _).
    assert (Hs1 : writes_within [t] s s1).
    { eapply writes_within_trans; [apply (writes_within_log _ [EvDecodeInto d (Raw u) t])|].
      apply writes_within_poke. by eauto. }
    destruct (DecodeInto d (Raw u) u).2 as [err|].
    + intros (Hw & _ & Hr)%IH. split; [by eapply writes_within_trans|]. by eauto.
    + run. intros [= <- <-]. split; [done|]. split; [by eauto|by right].
Qed.

Lemma decodeListItem_inv (ds : list Decoder) (t : addr) (s s' : State)
    (o : Object) (err : option error) :
  decodeListItem t ds s = Some ((o, err), s') →
  writes_within [t] s s' ∧ (ds ≠ [] → is_Some (heap s !! t)) ∧
  match err with
  | Some e => o = nilObject ∧ IsNotRegisteredError e = false ∧ heap s' = heap s
  | None => o = ptrUnknown t ∨ ∃ d data, d ∈ ds ∧ Decode d data = (o, None)
  end.
Proof.
  unfold decodeListItem. run.
  destruct (decodeListItem_full t ds s) as [[r s1]|] eqn:Hfull; [|done].
  apply decodeListItem_full_inv in Hfull as (Hh & Htr & Hlive & Hr).
  assert (Hw1 : writes_within [t] s s1).
  { split; [by rewrite Hh|]. split; [by rewrite Hh|done]. }
  destruct r as [[o1 err1]|].
  - run. intros [= <- <- <-]. split; [done|]. split; [done|].
    destruct err1 as [e|]; [|by right]. by destruct Hr.
  - run. destruct (decodeListItem_meta t ds s1) as [[r s2]|] eqn:Hmeta; [|done].
    apply decodeListItem_meta_inv in Hmeta as (Hw2 & _ & Hr2).
    assert (Hw : writes_within [t] s s2) by by eapply writes_within_trans.
    destruct Hr2 as [-> | ->]; run; intros [= <- <- <-]; by eauto.
Qed.

Lemma live_within (ts : list addr) (s s' : State) (obj : Object) :
  writes_within ts s s' → live (heap s') obj = live (heap s) obj.
Proof. intros (Hd & _). by apply live_dom. Qed.

(** Everything one run of [DecodeList] guarantees about its result. *)
Lemma DecodeList_inv (ds : list Decoder) (objects objects' : list Object)
    (errs : list error) (s s' : State) :
  DecodeList objects ds s = Some ((objects', errs), s') →
  writes_within (envelopes objects) s s' ∧
  (ds ≠ [] → Forall (live (heap s)) objects) ∧
  Forall (λ e, IsNotRegisteredError e = false) errs ∧
  length errs ≤ length (envelopes objects) ∧
  Forall2 (λ obj obj',
    obj' = obj ∨
    ∃ t d data, obj = ptrUnknown t ∧ d ∈ ds ∧ Decode d data = (obj', None))
    objects objects'.
Proof.
  rewrite DecodeList_visits. revert objects' errs s.
  induction objects as [|obj objects IH]; intros objects' errs s.
  - simpl. intros [= <- <- <-]. split; [apply writes_within_refl|]. by repeat split.
  - cbn [for_each_position]. run. destruct (DecodeList_at ds obj s) as [[[obj1 errs1] s1]|] eqn:Hat; [|done]. run.
    destruct (for_each_position _ objects s1) as [[[rest' errs2] s2]|] eqn:Hrest; [|done].
    run. intros [= <- <- <-].
    apply IH in Hrest as (Hw2 & Hlive2 & Herr2 & Hlen2 & Hpos2).
    assert (Hhead : writes_within (envelopes [obj]) s s1 ∧
              (ds ≠ [] → live (heap s) obj) ∧
              Forall (λ e, IsNotRegisteredError e = false) errs1 ∧
              length errs1 ≤ length (envelopes [obj]) ∧
              (obj1 = obj ∨
               ∃ t d data, obj = ptrUnknown t ∧ d ∈ ds ∧ Decode d data = (obj1, None))).
    { revert Hat. unfold DecodeList_at, envelopes, live. simpl.
      destruct obj as [|t|ty p]; simpl.
      - intros [= <- <- <-]. split; [apply writes_within_refl|]. by repeat split; eauto.
      - run. destruct (decodeListItem t ds s) as [[[o err] s0]|] eqn:Hitem; [|done].
        apply decodeListItem_inv in Hitem as (Hw & Hl & Hr). run.
        destruct err as [e|]; run; intros [= <- <- <-].
        + destruct Hr as (_ & He & _). split; [done|].
          split; [by intros Hds; apply bool_decide_pack, Hl|]. split; [by constructor|].
          split; [done|by left].
        + split; [done|]. split; [by intros Hds; apply bool_decide_pack, Hl|].
          split; [done|]. split; [simpl; lia|].
          destruct Hr as [->|(d & data & Hin & Hdec)]; [by left|]. right. by eauto 10.
      - intros [= <- <- <-]. split; [apply writes_within_refl|]. by repeat split; eauto. }
    destruct Hhead as (Hw1 & Hlive1 & Herr1 & Hlen1 & Hpos1).
    assert (Henv : envelopes (obj :: objects) = envelopes [obj] ++ envelopes objects).
    { unfold envelopes. simpl. by destruct (asUnknown obj). }
    split.
    { eapply writes_within_trans.
      - eapply writes_within_mono; [|exact Hw1]. rewrite Henv.
        intros x Hx. apply elem_of_app. by left.
      - eapply writes_within_mono; [|exact Hw2]. rewrite Henv.
        intros x Hx. apply elem_of_app. by right. }
    split.
    { intros Hds. constructor; [by apply Hlive1|].
      eapply Forall_impl; [by apply Hlive2|]. intros x Hx. simpl in Hx.
      by rewrite (live_within _ _ _ _ Hw1) in Hx. }
    split; [by apply Forall_app|].
    split; [rewrite Henv, !length_app; lia|]. by constructor.
Qed.

Lemma elem_of_envelopes (objects : list Object) (q : addr) :
  q ∈ envelopes objects ↔ ptrUnknown q ∈ objects.
Proof.
  unfold envelopes. rewrite list_elem_of_omap. split.
  - intros (obj & Hin & Hobj). by destruct obj; simplify_eq/=.
  - intros Hin. by exists (ptrUnknown q).
Qed.

(** ** DecodeList *)

(** X1: [DecodeList] creates and removes no cell of the store, leaves
    every envelope that the collection does not refer to as it was, and only
    adds to the trace. *)
Theorem DecodeList_footprint (ds : list Decoder) (objects objects' : list Object)
    (errs : list error) (s s' : State) :
  DecodeList objects ds s = Some ((objects', errs), s') →
  dom (heap s') = dom (heap s) ∧
  (∀ q, ptrUnknown q ∉ objects → heap s' !! q = heap s !! q) ∧
  trace s `prefix_of` trace s'.
Proof.
  intros ((Hd & Hc & Ht) & _)%DecodeList_inv. split; [done|]. split; [|done].
  intros q Hq. apply Hc. by rewrite elem_of_envelopes.
Qed.

(** X2: no error that [DecodeList] returns is a "kind not registered"
    error, and there is at most one error for each [*Unknown] of the
    collection. *)
Theorem DecodeList_errors (ds : list Decoder) (objects objects' : list Object)
    (errs : list error) (s s' : State) :
  DecodeList objects ds s = Some ((objects', errs), s') →
  Forall (λ e, IsNotRegisteredError e = false) errs ∧
  length errs ≤ length (envelopes objects).
Proof. by intros (_ & _ & He & Hl & _)%DecodeList_inv. Qed.

(** X3: after [DecodeList] a position holds what it held before, or an
    object that one of the given decoders returned from a successful
    [Decode]; the latter only where a [*Unknown] was. *)
Theorem DecodeList_provenance (ds : list Decoder) (objects objects' : list Object)
    (errs : list error) (s s' : State) (i : nat) (obj' : Object) :
  DecodeList objects ds s = Some ((objects', errs), s') →
  objects' !! i = Some obj' →
  objects !! i = Some obj' ∨
  ∃ t d data, objects !! i = Some (ptrUnknown t) ∧ d ∈ ds ∧ Decode d data = (obj', None).
Proof.
  intros (_ & _ & _ & _ & Hpos)%DecodeList_inv Hi.
  destruct (Forall2_lookup_r _ _ _ _ _ Hpos Hi) as (obj & Hobj & [->|(t & d & data & -> & Hr)]).
  - by left.
  - right. by eauto 10.
Qed.

Lemma for_each_position_no_decoders (objects : list Object) (s : State) :
  for_each_position (DecodeList_at []) objects s = Some ((objects, []), s).
Proof.
  induction objects as [|obj objects IH]; [done|]. cbn [for_each_position].
  assert (DecodeList_at [] obj s = Some ((obj, []), s)) as Hat by by destruct obj.
  run. rewrite Hat. run. rewrite IH. by run.
Qed.

(** X4: [DecodeList] returns exactly when it is given no decoder or every
    [*Unknown] of the collection points to an envelope; otherwise it panics
    on [obj.Raw]. *)
Theorem DecodeList_returns_iff (ds : list Decoder) (objects : list Object) (s : State) :
  is_Some (DecodeList objects ds s) ↔ ds = [] ∨ Forall (live (heap s)) objects.
Proof.
  split.
  - intros [[[objects' errs] s'] Hrun]. destruct ds as [|d ds]; [by left|]. right.
    by apply DecodeList_inv in Hrun as (_ & Hlive & _); apply Hlive.
  - intros [->|Hlive].
    + rewrite DecodeList_visits, for_each_position_no_decoders. by eexists.
    + destruct (DecodeList_returns ds objects s Hlive) as (r & s' & ->). by eexists.
Qed.

(** X5: a collection that holds no [*Unknown] passes through [DecodeList]
    as it is, whatever the decoders: no error, no call, no write. *)
Theorem DecodeList_no_envelopes (ds : list Decoder) (objects : list Object) (s : State) :
  envelopes objects = [] →
  DecodeList objects ds s = Some ((objects, []), s).
Proof.
  rewrite DecodeList_visits. induction objects as [|obj objects IH]; intros Henv; [done|].
  assert (asUnknown obj = None ∧ envelopes objects = []) as [Hobj Hrest].
  { unfold envelopes in *. simpl in Henv. by destruct (asUnknown obj). }
  cbn [for_each_position]. run. unfold DecodeList_at at 1. rewrite Hobj. run.
  rewrite IH by done. by run.
Qed.

(** X6: [DecodeList] of two collections laid end to end is [DecodeList] of
    the first followed by [DecodeList] of the second in the state the first
    left, with the results and the errors laid end to end. *)
Theorem DecodeList_app (ds : list Decoder) (pre post : list Object) (s : State) :
  DecodeList (pre ++ post) ds s =
  ('(pre', errs1) <- DecodeList pre ds ;
   '(post', errs2) <- DecodeList post ds ;
   ret (pre' ++ post', errs1 ++ errs2)) s.
Proof.
  rewrite DecodeList_visits, for_each_position_app. run. rewrite DecodeList_visits.
  destruct (for_each_position _ pre s) as [[[pre' errs1] s1]|]; [|done]. run.
  by rewrite DecodeList_visits.
Qed.

Lemma decoder_call_mono (ds ds' : list Decoder) (ts ts' : list addr) (ev : Event) :
  ds ⊆ ds' → ts ⊆ ts' → decoder_call ds ts ev → decoder_call ds' ts' ev.
Proof.
  intros Hds Hts. destruct ev; simpl; try done.
  - apply Hds.
  - intros [? ?]. split; [by apply Hds|by apply Hts].
Qed.

Lemma decodeListItem_full_calls (ds : list Decoder) (t : addr) (s s' : State)
    (r : option (Object * option error)) :
  decodeListItem_full t ds s = Some (r, s') →
  ∃ evs, trace s' = trace s ++ evs ∧ Forall (decoder_call ds [t]) evs ∧
         length evs ≤ length ds.
Proof.
  revert s. induction ds as [|d ds IH]; intros s; simpl.
  - intros [= <- <-]. exists []. by rewrite app_nil_r.
  - run. unfold load at 1. destruct (heap s !! t) as [u|]; [|done]. run.
    rewrite call_Decode_eq. run.
    assert (Hd : decoder_call (d :: ds) [t] (EvDecode d (Raw u))) by by left.
    destruct (Decode d (Raw u)) as [o [err|]].
    + destruct (IsNotRegisteredError err).
      * intros (evs & Htr & Hevs & Hlen)%IH. exists (EvDecode d (Raw u) :: evs).
        split; [by rewrite Htr; simpl; rewrite <- app_assoc|].
        split; [|simpl; lia]. constructor; [done|].
        eapply Forall_impl; [exact Hevs|]. intros ev. apply decoder_call_mono; [|done].
        intros x Hx. by right.
      * run. intros [= <- <-]. exists [EvDecode d (Raw u)].
        split; [done|]. split; [by constructor|simpl; lia].
    + run. intros [= <- <-]. exists [EvDecode d (Raw u)].
      split; [done|]. split; [by constructor|simpl; lia].
Qed.

Lemma decodeListItem_meta_calls (ds : list Decoder) (t : addr) (s s' : State)
    (r : option (Object * option error)) :
  decodeListItem_meta t ds s = Some (r, s') →
  ∃ evs, trace s' = trace s ++ evs ∧ Forall (decoder_call ds [t]) evs ∧
         length evs ≤ length ds.
Proof.
  revert s. induction ds as [|d ds IH]; intros s; simpl.
  - intros [= <- <-]. exists []. by rewrite app_nil_r.
  - run. unfold load at 1. destruct (heap s !! t) as [u|] eqn:Ht; [|done]. run.
    rewrite (call_DecodeInto_eq d (Raw u) t u s Ht). run.
    assert (Hd : decoder_call (d :: ds) [t] (EvDecodeInto d (Raw u) t)).
    { split; by left. }
    destruct (DecodeInto d (Raw u) u).2 as [err|].
    + intros (evs & Htr & Hevs & Hlen)%IH. exists (EvDecodeInto d (Raw u) t :: evs).
      split; [by rewrite Htr; simpl; rewrite <- app_assoc|].
      split; [|simpl; lia]. constructor; [done|].
      eapply Forall_impl; [exact Hevs|]. intros ev. apply decoder_call_mono; [|done].
      intros x Hx. by right.
    + run. intros [= <- <-]. exists [EvDecodeInto d (Raw u) t].
      split; [done|]. split; [by constructor|simpl; lia].
Qed.

Lemma decodeListItem_calls (ds : list Decoder) (t : addr) (s s' : State)
    (r : Object * option error) :
  decodeListItem t ds s = Some (r, s') →
  ∃ evs, trace s' = trace s ++ evs ∧ Forall (decoder_call ds [t]) evs ∧
         length evs ≤ 2 * length ds.
Proof.
  unfold decodeListItem. run.
  destruct (decodeListItem_full t ds s) as [[r1 s1]|] eqn:Hfull; [|done].
  apply decodeListItem_full_calls in Hfull as (evs1 & Htr1 & Hevs1 & Hlen1).
  destruct r1 as [r1|].
  - run. intros [= <- <-]. exists evs1. split; [done|]. split; [done|lia].
  - run. destruct (decodeListItem_meta t ds s1) as [[r2 s2]|] eqn:Hmeta; [|done].
    apply decodeListItem_meta_calls in Hmeta as (evs2 & Htr2 & Hevs2 & Hlen2).
    assert (Hall : trace s2 = trace s ++ evs1 ++ evs2 ∧
                   Forall (decoder_call ds [t]) (evs1 ++ evs2) ∧
                   length (evs1 ++ evs2) ≤ 2 * length ds).
    { split; [by rewrite Htr2, Htr1, app_assoc|]. split; [by apply Forall_app|].
      rewrite length_app. lia. }
    destruct r2 as [r2|]; run; intros [= <- <-]; by exists (evs1 ++ evs2).
Qed.

(** X7: the only calls [DecodeList] makes are full decodes by the given
    decoders and metadata decodes by them into envelopes of the collection,
    at most two calls for each decoder and [*Unknown] position. *)
Theorem DecodeList_calls (ds : list Decoder) (objects objects' : list Object)
    (errs : list error) (s s' : State) :
  DecodeList objects ds s = Some ((objects', errs), s') →
  ∃ evs, trace s' = trace s ++ evs ∧
         Forall (decoder_call ds (envelopes objects)) evs ∧
         length evs ≤ 2 * length ds * length (envelopes objects).
Proof.
  rewrite DecodeList_visits. revert objects' errs s.
  induction objects as [|obj objects IH]; intros objects' errs s.
  - simpl. intros [= <- <- <-]. exists []. rewrite app_nil_r. split; [done|].
    split; [done|]. simpl. lia.
  - cbn [for_each_position]. run.
    destruct (DecodeList_at ds obj s) as [[[obj1 errs1] s1]|] eqn:Hat; [|done]. run.
    destruct (for_each_position _ objects s1) as [[[rest' errs2] s2]|] eqn:Hrest; [|done].
    run. intros [= <- <- <-]. apply IH in Hrest as (evs2 & Htr2 & Hevs2 & Hlen2).
    assert (Henv : envelopes (obj :: objects) = envelopes [obj] ++ envelopes objects).
    { unfold envelopes. simpl. by destruct (asUnknown obj). }
    assert (Hhead : ∃ evs1, trace s1 = trace s ++ evs1 ∧
              Forall (decoder_call ds (envelopes [obj])) evs1 ∧
              length evs1 ≤ 2 * length ds * length (envelopes [obj])).
    { revert Hat. unfold DecodeList_at, envelopes. destruct obj as [|t|ty p]; simpl.
      - intros [= <- <- <-]. exists []. rewrite app_nil_r. split; [done|].
        split; [done|]. simpl. lia.
      - run. destruct (decodeListItem t ds s) as [[[o err] s0]|] eqn:Hitem; [|done].
        apply decodeListItem_calls in Hitem as (evs1 & Htr1 & Hevs1 & Hlen1). run.
        destruct err as [e|]; run; intros [= <- <- <-];
          (exists evs1; split; [done|]; split; [done|]; lia).
      - intros [= <- <- <-]. exists []. rewrite app_nil_r. split; [done|].
        split; [done|]. simpl. lia. }
    destruct Hhead as (evs1 & Htr1 & Hevs1 & Hlen1).
    exists (evs1 ++ evs2). split; [by rewrite Htr2, Htr1, app_assoc|]. split.
    + apply Forall_app. split.
      * eapply Forall_impl; [exact Hevs1|]. intros ev. apply decoder_call_mono; [done|].
        rewrite Henv. intros x Hx. apply elem_of_app. by left.
      * eapply Forall_impl; [exact Hevs2|]. intros ev. apply decoder_call_mono; [done|].
        rewrite Henv. intros x Hx. apply elem_of_app. by right.
    + rewrite Henv, !length_app. lia.
Qed.

(** ** EncodeList *)

Lemma EncodeList_each_store (e : Encoder) (overrides : list GroupVersion)
    (objects objects' : list Object) (errs : list error) (s s' : State) :
  for_each_position (EncodeList_at e overrides) objects s = Some ((objects', errs), s') →
  heap s ⊆ heap s' ∧
  NoDup (encoded e overrides objects objects') ∧
  (∀ p, p ∈ encoded e overrides objects objects' → heap s !! p = None) ∧
  (∀ p, p ∈ dom (heap s') ↔ p ∈ dom (heap s) ∨ p ∈ encoded e overrides objects objects') ∧
  length (encoded e overrides objects objects') + length errs = length objects.
Proof.
  revert objects' errs s. induction objects as [|obj objects IH]; intros objects' errs s.
  - simpl. intros [= <- <- <-]. split; [done|]. split; [constructor|].
    split; [by intros p ?%elem_of_nil|]. split; [|done].
    intros p. split; [by left|]. by intros [?|?%elem_of_nil].
  - cbn [for_each_position]. run. rewrite EncodeList_at_eq.
    destruct (Encode e obj overrides) as [data [err|]] eqn:Henc; cbv zeta; run.
    + destruct (for_each_position _ objects _) as [[[rest' errs2] s2]|] eqn:Hrest; [|done].
      run. intros [= <- <- <-]. apply IH in Hrest as (Hsub & Hnd & Hnew & Hdom & Hlen).
      cbn [encoded]. rewrite Henc. cbn [snd].
      split; [done|]. split; [done|]. split; [done|]. split; [done|].
      simpl. lia.
    + set (p := fresh (dom (heap s))).
      set (env := {| UTypeMeta := zeroTypeMeta; Raw := data |}).
      assert (Hp : heap s !! p = None) by apply not_elem_of_dom, is_fresh.
      destruct (for_each_position _ objects _) as [[[rest' errs2] s2]|] eqn:Hrest; [|done].
      run. intros [= <- <- <-]. apply IH in Hrest as (Hsub & Hnd & Hnew & Hdom & Hlen).
      simpl in Hsub, Hnew, Hdom.
      cbn [encoded asUnknown]. rewrite Henc. cbn [snd].
      assert (Hsub1 : heap s ⊆ <[p := env]> (heap s)) by by apply insert_subseteq.
      split; [by etrans|]. split.
      { apply NoDup_cons. split; [|done]. intros Hin%Hnew.
        by rewrite lookup_insert_eq in Hin. }
      split.
      { intros q [->|Hq%Hnew]%elem_of_cons; [done|]. by eapply lookup_weaken_None. }
      split.
      { intros q. rewrite Hdom, dom_insert, elem_of_union, elem_of_singleton, elem_of_cons.
        tauto. }
      simpl. lia.
Qed.

(** X8: [EncodeList] writes to no cell that exists.  Each position where
    the encoder succeeds receives an envelope of its own, at an address that
    was free before the call, and these are the only cells added; together
    with the recorded errors they account for every position. *)
Theorem EncodeList_store (e : Encoder) (overrides : list GroupVersion)
    (objects objects' : list Object) (agg : option (list error)) (s s' : State) :
  EncodeList e objects overrides s = Some ((objects', agg), s') →
  heap s ⊆ heap s' ∧
  NoDup (encoded e overrides objects objects') ∧
  (∀ p, p ∈ encoded e overrides objects objects' → heap s !! p = None) ∧
  (∀ p, p ∈ dom (heap s') ↔ p ∈ dom (heap s) ∨ p ∈ encoded e overrides objects objects') ∧
  length (encoded e overrides objects objects') + length (failures e overrides objects) =
    length objects.
Proof.
  rewrite EncodeList_visits. run.
  destruct (EncodeList_each e overrides objects s) as (objects1 & s1 & Hrun & _).
  rewrite Hrun. run. intros [= <- <- <-]. by apply EncodeList_each_store in Hrun.
Qed.

Lemma DecodeList_decodes_all (e : Encoder) (overrides : list GroupVersion)
    (d : Decoder) (ds : list Decoder) (h : gmap addr Unknown)
    (objects objects' : list Object) :
  Forall2 (λ obj obj', ∃ p, obj' = ptrUnknown p ∧
    h !! p = Some {| UTypeMeta := zeroTypeMeta; Raw := (Encode e obj overrides).1 |} ∧
    Decode d (Encode e obj overrides).1 = (obj, None)) objects objects' →
  ∀ s, heap s = h →
  for_each_position (DecodeList_at (d :: ds)) objects' s =
  Some ((objects, []), log (map (λ obj, EvDecode d (Encode e obj overrides).1) objects) s).
Proof.
  induction 1 as [|obj obj' objects objects' (p & -> & Hp & Hdec) Hrest IH]; intros s Hs.
  - simpl. by rewrite log_nil.
  - cbn [for_each_position]. unfold DecodeList_at at 1, decodeListItem. simpl. run.
    rewrite <- Hs in Hp. rewrite (load_eq p _ s Hp). run. rewrite call_Decode_eq. run.
    simpl. rewrite Hdec. run. rewrite IH by done. run. by rewrite log_log.
Qed.

(** X9: when the encoder succeeds on every object of a collection and the
    first decoder turns the bytes of each back into that object,
    [DecodeList] after [EncodeList] gives back the collection, position by
    position, with no error from either; only the first decoder is asked,
    once for each position. *)
Theorem EncodeList_DecodeList_round_trip (e : Encoder) (overrides : list GroupVersion)
    (d : Decoder) (ds : list Decoder) (objects : list Object) (s : State) :
  Forall (λ obj, (Encode e obj overrides).2 = None ∧
                 Decode d (Encode e obj overrides).1 = (obj, None)) objects →
  ∃ objects' s',
    EncodeList e objects overrides s = Some ((objects', None), s') ∧
    DecodeList objects' (d :: ds) s' =
    Some ((objects, []),
          log (map (λ obj, EvDecode d (Encode e obj overrides).1) objects) s').
Proof.
  intros Hall.
  destruct (EncodeList_each e overrides objects s) as (objects' & s' & Hrun & _ & _ & Hpos).
  exists objects', s'. split.
  - rewrite EncodeList_visits. run. rewrite Hrun. run.
    assert (failures e overrides objects = []) as ->; [|done].
    apply failures_nil. eapply Forall_impl; [exact Hall|]. by intros obj [? _].
  - rewrite DecodeList_visits.
    apply (DecodeList_decodes_all e overrides d ds (heap s')); [|done].
    clear Hrun. induction Hpos as [|obj obj' objects objects' Hobj Hpos IH]; [constructor|].
    apply Forall_cons in Hall as [[Henc Hdec] Hall]. constructor; [|by apply IH].
    destruct (Encode e obj overrides) as [data [err|]]; [done|].
    destruct Hobj as (p & -> & _ & Hp). by exists p.
Qed.

(** X10: when every [*Unknown] of a collection points to an envelope,
    so does every [*Unknown] of the collection after [EncodeList]; hence
    [DecodeList] on the result returns, whatever the encoder and the decoders
    did, with a collection of the original length. *)
Theorem EncodeList_then_DecodeList (e : Encoder) (overrides : list GroupVersion)
    (ds : list Decoder) (objects : list Object) (s : State) :
  Forall (live (heap s)) objects →
  ∃ objects1 agg s1 objects2 errs s2,
    EncodeList e objects overrides s = Some ((objects1, agg), s1) ∧
    Forall (live (heap s1)) objects1 ∧
    DecodeList objects1 ds s1 = Some ((objects2, errs), s2) ∧
    length objects2 = length objects.
Proof.
  intros Hlive.
  destruct (EncodeList_each e overrides objects s)
    as (objects1 & s1 & Hrun & _ & Hsub & Hpos).
  assert (Hlive1 : Forall (live (heap s1)) objects1).
  { clear Hrun. induction Hpos as [|obj obj1 objects objects1 Hobj Hpos IH]; [constructor|].
    apply Forall_cons in Hlive as [Hl Hlive]. constructor; [|by apply IH].
    destruct (Encode e obj overrides) as [data [err|]].
    - subst obj1. unfold live in *. destruct (asUnknown obj) as [t|]; [|done].
      apply bool_decide_unpack in Hl as [u Hu]. apply bool_decide_pack.
      exists u. by eapply lookup_weaken.
    - destruct Hobj as (p & -> & _ & Hp). unfold live. simpl.
      apply bool_decide_pack. by eexists. }
  destruct (DecodeList_returns ds objects1 s1 Hlive1) as ([objects2 errs] & s2 & Hdec).
  exists objects1, (NewAggregate (failures e overrides objects)), s1, objects2, errs, s2.
  split; [rewrite EncodeList_visits; run; rewrite Hrun; by run|].
  split; [done|]. split; [done|].
  rewrite (DecodeList_length _ _ _ _ _ _ Hdec). symmetry. by eapply Forall2_length.
Qed.

(** ** objectTyperToTyper *)

(** X11: the adapter always returns, asks the typer and touches no
    envelope, and its result is either a kind with its flag and no error, or
    an error with a nil kind and a false flag, never a mix of the two. *)
Theorem objectTyperToTyper_ObjectKind_result (t : objectTyperToTyper) (obj : Object)
    (s : State) :
  ∃ gvk unv err s',
    objectTyperToTyper_ObjectKind t obj s = Some ((gvk, unv, err), s') ∧
    heap s' = heap s ∧
    (is_Some gvk ↔ err = None) ∧
    (is_Some err → unv = false) ∧
    (∀ g, gvk = Some g → ObjectKind (typer t) obj = (g, None) ∧
                          IsUnversioned (typer t) obj = (unv, true)).
Proof.
  unfold objectTyperToTyper_ObjectKind. run. rewrite call_ObjectKind_eq. run.
  destruct (ObjectKind (typer t) obj) as [g [err|]] eqn:Hk.
  - run. eexists _, _, _, _. split; [done|]. split; [done|].
    split; [split; [by intros [? ?]|done]|]. split; done.
  - run. rewrite call_IsUnversioned_eq. run.
    destruct (IsUnversioned (typer t) obj) as [b [|]] eqn:Hu; simpl; run.
    + eexists _, _, _, _. split; [done|]. split; [done|].
      split; [by split; eauto|]. split; [by intros [? ?]|]. by intros g' [= <-].
    + eexists _, _, _, _. split; [done|]. split; [done|].
      split; [split; [by intros [? ?]|done]|]. split; done.
Qed.

(** ** MultiObjectTyper *)

Lemma call_Recognizes_eq (t : ObjectTyper) (gvk : GroupVersionKind) (s : State) :
  call_Recognizes t gvk s = Some (Recognizes t gvk, log [EvRecognizes t gvk] s).
Proof. done. Qed.

(** X12: [Recognizes] of a [MultiObjectTyper] is true exactly when some
    source recognizes the kind; the sources are asked in order up to the
    first that does, and all of them when none does. *)
Theorem MultiObjectTyper_Recognizes_any (m : list ObjectTyper) (gvk : GroupVersionKind)
    (s : State) :
  MultiObjectTyper_Recognizes m gvk s =
  Some (existsb (λ t, Recognizes t gvk) m,
        log (map (λ t, EvRecognizes t gvk) (upto_first (λ t, Recognizes t gvk) m)) s).
Proof.
  revert s. induction m as [|t m IH]; intros s; simpl.
  - by rewrite log_nil.
  - run. rewrite call_Recognizes_eq. run. destruct (Recognizes t gvk); simpl; run; [done|].
    rewrite IH. by rewrite log_log.
Qed.

Lemma ObjectKind_range_restart (m : list ObjectTyper) (obj : Object)
    (gvk gvk' : GroupVersionKind) (err err' : option error) (s : State) :
  m ≠ [] →
  MultiObjectTyper_ObjectKind_range m obj gvk err s =
  MultiObjectTyper_ObjectKind_range m obj gvk' err' s.
Proof. by destruct m. Qed.

Lemma ObjectKind_range_app (m1 m2 : list ObjectTyper) (obj : Object)
    (gvk : GroupVersionKind) (err : error) (s : State) :
  MultiObjectTyper_ObjectKind_range (m1 ++ m2) obj gvk (Some err) s =
  ('(gvk', err') <- MultiObjectTyper_ObjectKind_range m1 obj gvk (Some err) ;
   match err' with
   | None => ret (gvk', None)
   | Some _ => MultiObjectTyper_ObjectKind_range m2 obj gvk' err'
   end) s.
Proof.
  revert gvk err s. induction m1 as [|t m1 IH]; intros gvk err s; simpl.
  - by run.
  - run. rewrite call_ObjectKind_eq. run.
    destruct (ObjectKind t obj) as [gvk1 [err1|]]; run; [|done].
    rewrite IH. by run.
Qed.

Lemma ObjectKinds_range_restart (m : list ObjectTyper) (obj : Object)
    (gvks gvks' : list GroupVersionKind) (err err' : option error) (s : State) :
  m ≠ [] →
  MultiObjectTyper_ObjectKinds_range m obj gvks err s =
  MultiObjectTyper_ObjectKinds_range m obj gvks' err' s.
Proof. by destruct m. Qed.

Lemma ObjectKinds_range_app (m1 m2 : list ObjectTyper) (obj : Object)
    (gvks : list GroupVersionKind) (err : error) (s : State) :
  MultiObjectTyper_ObjectKinds_range (m1 ++ m2) obj gvks (Some err) s =
  ('(gvks', err') <- MultiObjectTyper_ObjectKinds_range m1 obj gvks (Some err) ;
   match err' with
   | None => ret (gvks', None)
   | Some _ => MultiObjectTyper_ObjectKinds_range m2 obj gvks' err'
   end) s.
Proof.
  revert gvks err s. induction m1 as [|t m1 IH]; intros gvks err s; simpl.
  - by run.
  - run. rewrite call_ObjectKinds_eq. run.
    destruct (ObjectKinds t obj) as [gvks1 [err1|]]; run; [|done].
    rewrite IH. by run.
Qed.

(** X13: a [MultiObjectTyper] made of two non-empty lists of sources laid
    end to end answers [ObjectKind] and [ObjectKinds] as the first list
    does, and as the second list does when the first fails. *)
Theorem MultiObjectTyper_kind_app (m1 m2 : list ObjectTyper) (obj : Object) (s : State) :
  m1 ≠ [] → m2 ≠ [] →
  MultiObjectTyper_ObjectKind (m1 ++ m2) obj s =
    ('(gvk, err) <- MultiObjectTyper_ObjectKind m1 obj ;
     match err with
     | None => ret (gvk, None)
     | Some _ => MultiObjectTyper_ObjectKind m2 obj
     end) s ∧
  MultiObjectTyper_ObjectKinds (m1 ++ m2) obj s =
    ('(gvks, err) <- MultiObjectTyper_ObjectKinds m1 obj ;
     match err with
     | None => ret (gvks, None)
     | Some _ => MultiObjectTyper_ObjectKinds m2 obj
     end) s.
Proof.
  intros Hm1 Hm2. destruct m1 as [|t m1]; [done|]. split.
  - unfold MultiObjectTyper_ObjectKind. simpl. run. rewrite call_ObjectKind_eq. run.
    destruct (ObjectKind t obj) as [gvk1 [err1|]]; run; [|done].
    rewrite ObjectKind_range_app. run.
    destruct (MultiObjectTyper_ObjectKind_range m1 obj gvk1 (Some err1) _)
      as [[[gvk2 [err2|]] s2]|]; [|done|done].
    by apply ObjectKind_range_restart.
  - unfold MultiObjectTyper_ObjectKinds. simpl. run. rewrite call_ObjectKinds_eq. run.
    destruct (ObjectKinds t obj) as [gvks1 [err1|]]; run; [|done].
    rewrite ObjectKinds_range_app. run.
    destruct (MultiObjectTyper_ObjectKinds_range m1 obj gvks1 (Some err1) _)
      as [[[gvks2 [err2|]] s2]|]; [|done|done].
    by apply ObjectKinds_range_restart.
Qed.

(** X14: [IsUnversioned] and [Recognizes] of a [MultiObjectTyper] made of
    two lists of sources laid end to end answer as the first list does, and
    as the second list does when the first does not know (does not
    recognize). *)
Theorem MultiObjectTyper_flag_app (m1 m2 : list ObjectTyper) (obj : Object)
    (gvk : GroupVersionKind) (s : State) :
  MultiObjectTyper_IsUnversioned (m1 ++ m2) obj s =
    ('(unversioned, ok) <- MultiObjectTyper_IsUnversioned m1 obj ;
     if ok then ret (unversioned, true) else MultiObjectTyper_IsUnversioned m2 obj) s ∧
  MultiObjectTyper_Recognizes (m1 ++ m2) gvk s =
    (b <- MultiObjectTyper_Recognizes m1 gvk ;
     if b then ret true else MultiObjectTyper_Recognizes m2 gvk) s.
Proof.
  split.
  - revert s. induction m1 as [|t m1 IH]; intros s; simpl; [by run|].
    run. rewrite call_IsUnversioned_eq. run.
    destruct (IsUnversioned t obj) as [b [|]]; run; [done|]. rewrite IH. by run.
  - revert s. induction m1 as [|t m1 IH]; intros s; simpl; [by run|].
    run. rewrite call_Recognizes_eq. run.
    destruct (Recognizes t gvk); run; [done|]. rewrite IH. by run.
Qed.

End MoreProperties.

(** * The further properties on the concrete collaborators *)

Lemma DecodeList_footprint_witness :
  ∃ s', DecodeList [ptrUnknown 1] [decMeta] exState = Some (([ptrUnknown 1], []), s') ∧
        heap s' !! 1%positive ≠ heap exState !! 1%positive ∧
        heap s' !! 2%positive = heap exState !! 2%positive.
Proof.
  eexists. split; [vm_compute; reflexivity|]. split; [by vm_compute|].
  refine (proj1 (proj2 (DecodeList_footprint [decMeta] [ptrUnknown 1] [ptrUnknown 1] []
            exState _ _)) 2%positive _).
  - vm_compute. reflexivity.
  - by intros [=]%list_elem_of_singleton.
Defined.

Lemma DecodeList_errors_witness :
  DecodeList [ptrUnknown 1; ptrStruct "*api.Node" 9; ptrUnknown 2] [decForeign; decStrict]
    exState =
    Some (([ptrUnknown 1; ptrStruct "*api.Node" 9; ptrUnknown 2],
           [errMalformed; errMalformed]),
          log [EvDecode decForeign [x7b; x7d]; EvDecode decStrict [x7b; x7d];
               EvDecode decForeign [x5b; x5d]; EvDecode decStrict [x5b; x5d]] exState) ∧
  Forall (λ e, IsNotRegisteredError e = false) [errMalformed; errMalformed] ∧
  length [errMalformed; errMalformed] ≤
    length (envelopes [ptrUnknown 1; ptrStruct "*api.Node" 9; ptrUnknown 2]).
Proof.
  assert (Hrun : DecodeList [ptrUnknown 1; ptrStruct "*api.Node" 9; ptrUnknown 2]
                   [decForeign; decStrict] exState =
    Some (([ptrUnknown 1; ptrStruct "*api.Node" 9; ptrUnknown 2],
           [errMalformed; errMalformed]),
          log [EvDecode decForeign [x7b; x7d]; EvDecode decStrict [x7b; x7d];
               EvDecode decForeign [x5b; x5d]; EvDecode decStrict [x5b; x5d]] exState)).
  { vm_compute. reflexivity. }
  split; [exact Hrun|]. exact (DecodeList_errors _ _ _ _ _ _ Hrun).
Defined.

Lemma DecodeList_provenance_witness :
  DecodeList [ptrUnknown 1; ptrStruct "*api.Node" 9] [decForeign; decPods] exState =
    Some (([ptrStruct "*api.Pod" 7; ptrStruct "*api.Node" 9], []),
          log [EvDecode decForeign [x7b; x7d]; EvDecode decPods [x7b; x7d]] exState) ∧
  ([ptrUnknown 1; ptrStruct "*api.Node" 9] !! 0 = Some (ptrStruct "*api.Pod" 7) ∨
   ∃ t d data, [ptrUnknown 1; ptrStruct "*api.Node" 9] !! 0 = Some (ptrUnknown t) ∧
               d ∈ [decForeign; decPods] ∧ Decode d data = (ptrStruct "*api.Pod" 7, None)).
Proof.
  assert (Hrun : DecodeList [ptrUnknown 1; ptrStruct "*api.Node" 9] [decForeign; decPods]
                   exState =
    Some (([ptrStruct "*api.Pod" 7; ptrStruct "*api.Node" 9], []),
          log [EvDecode decForeign [x7b; x7d]; EvDecode decPods [x7b; x7d]] exState)).
  { vm_compute. reflexivity. }
  split; [exact Hrun|]. exact (DecodeList_provenance _ _ _ _ _ _ 0 _ Hrun eq_refl).
Defined.

Lemma DecodeList_returns_iff_witness :
  DecodeList [ptrUnknown 1; ptrUnknown 5] [decStrict] exState = None ∧
  is_Some (DecodeList [ptrUnknown 1; ptrUnknown 5] [] exState) ∧
  is_Some (DecodeList [ptrUnknown 1; ptrUnknown 2] [decStrict] exState).
Proof.
  split; [|split].
  - apply eq_None_not_Some.
    intros [Hds|Hlive]%(DecodeList_returns_iff (Co:=exCollaborators)); [done|].
    apply Forall_cons in Hlive as [_ Hlive]. by apply Forall_cons in Hlive as [Hlive _].
  - apply (DecodeList_returns_iff (Co:=exCollaborators)). by left.
  - apply (DecodeList_returns_iff (Co:=exCollaborators)). right. by repeat constructor.
Defined.

Lemma DecodeList_no_envelopes_witness :
  envelopes [ptrStruct "*api.Node" 9; nilObject] = [] ∧
  DecodeList [ptrStruct "*api.Node" 9; nilObject] [decStrict; decPods] exState =
    Some (([ptrStruct "*api.Node" 9; nilObject], []), exState).
Proof.
  split; [done|].
  exact (DecodeList_no_envelopes (Co:=exCollaborators) [decStrict; decPods]
           [ptrStruct "*api.Node" 9; nilObject] exState eq_refl).
Defined.

Lemma DecodeList_calls_witness :
  DecodeList [ptrUnknown 1; ptrStruct "*api.Node" 9] [decForeign; decMeta] exState =
    Some (([ptrUnknown 1; ptrStruct "*api.Node" 9], []),
          poke 1 {| UTypeMeta := podMeta; Raw := [x7b; x7d] |}
            (log [EvDecode decForeign [x7b; x7d]; EvDecode decMeta [x7b; x7d];
                  EvDecodeInto decForeign [x7b; x7d] 1;
                  EvDecodeInto decMeta [x7b; x7d] 1] exState)) ∧
  ∃ evs,
    [EvDecode decForeign [x7b; x7d]; EvDecode decMeta [x7b; x7d];
     EvDecodeInto decForeign [x7b; x7d] 1; EvDecodeInto decMeta [x7b; x7d] 1] = [] ++ evs ∧
    Forall (decoder_call [decForeign; decMeta] [1%positive]) evs ∧
    length evs ≤ 4.
Proof.
  assert (Hrun : DecodeList [ptrUnknown 1; ptrStruct "*api.Node" 9] [decForeign; decMeta]
                   exState =
    Some (([ptrUnknown 1; ptrStruct "*api.Node" 9], []),
          poke 1 {| UTypeMeta := podMeta; Raw := [x7b; x7d] |}
            (log [EvDecode decForeign [x7b; x7d]; EvDecode decMeta [x7b; x7d];
                  EvDecodeInto decForeign [x7b; x7d] 1;
                  EvDecodeInto decMeta [x7b; x7d] 1] exState))).
  { vm_compute. reflexivity. }
  split; [exact Hrun|]. exact (DecodeList_calls _ _ _ _ _ _ Hrun).
Defined.

Lemma EncodeList_store_witness :
  EncodeList jsonEncoder [ptrStruct "*api.Pod" 7; ptrStruct "*api.Secret" 5; ptrUnknown 1] []
    exState =
    Some (([ptrUnknown 3; ptrStruct "*api.Secret" 5; ptrUnknown 4], Some [errUnsupported]),
          {| heap := <[4%positive := envelope [x72; x61; x77]]>
                       (<[3%positive := envelope [x70; x6f; x64]]> (heap exState));
             trace := [EvEncode jsonEncoder (ptrStruct "*api.Pod" 7) [];
                       EvEncode jsonEncoder (ptrStruct "*api.Secret" 5) [];
                       EvEncode jsonEncoder (ptrUnknown 1) []] |}) ∧
  heap exState ⊆ <[4%positive := envelope [x72; x61; x77]]>
                   (<[3%positive := envelope [x70; x6f; x64]]> (heap exState)) ∧
  NoDup [3%positive; 4%positive].
Proof.
  assert (Hrun : EncodeList jsonEncoder
                   [ptrStruct "*api.Pod" 7; ptrStruct "*api.Secret" 5; ptrUnknown 1] []
                   exState =
    Some (([ptrUnknown 3; ptrStruct "*api.Secret" 5; ptrUnknown 4], Some [errUnsupported]),
          {| heap := <[4%positive := envelope [x72; x61; x77]]>
                       (<[3%positive := envelope [x70; x6f; x64]]> (heap exState));
             trace := [EvEncode jsonEncoder (ptrStruct "*api.Pod" 7) [];
                       EvEncode jsonEncoder (ptrStruct "*api.Secret" 5) [];
                       EvEncode jsonEncoder (ptrUnknown 1) []] |})).
  { vm_compute. reflexivity. }
  split; [exact Hrun|].
  pose proof (EncodeList_store _ _ _ _ _ _ _ Hrun) as (Hsub & Hnd & _).
  split; [exact Hsub|exact Hnd].
Defined.

Lemma EncodeList_DecodeList_round_trip_witness :
  Forall (λ obj, (Encode jsonEncoder obj []).2 = None ∧
                 Decode decPods (Encode jsonEncoder obj []).1 = (obj, None))
    [ptrStruct "*api.Pod" 7; ptrStruct "*api.Pod" 7] ∧
  ∃ objects' s',
    EncodeList jsonEncoder [ptrStruct "*api.Pod" 7; ptrStruct "*api.Pod" 7] [] exState =
      Some ((objects', None), s') ∧
    DecodeList objects' [decPods; decStrict] s' =
      Some (([ptrStruct "*api.Pod" 7; ptrStruct "*api.Pod" 7], []),
            log [EvDecode decPods [x70; x6f; x64]; EvDecode decPods [x70; x6f; x64]] s').
Proof.
  assert (Hall : Forall (λ obj, (Encode jsonEncoder obj []).2 = None ∧
                   Decode decPods (Encode jsonEncoder obj []).1 = (obj, None))
                   [ptrStruct "*api.Pod" 7; ptrStruct "*api.Pod" 7]).
  { by repeat constructor. }
  split; [exact Hall|].
  exact (EncodeList_DecodeList_round_trip (Co:=exCollaborators) jsonEncoder [] decPods
           [decStrict] _ exState Hall).
Defined.

Lemma EncodeList_then_DecodeList_witness :
  Forall (live (heap exState)) [ptrUnknown 1; ptrStruct "*api.Secret" 5] ∧
  ∃ objects1 agg s1 objects2 errs s2,
    EncodeList brokenEncoder [ptrUnknown 1; ptrStruct "*api.Secret" 5] [] exState =
      Some ((objects1, agg), s1) ∧
    Forall (live (heap s1)) objects1 ∧
    DecodeList objects1 [decStrict] s1 = Some ((objects2, errs), s2) ∧
    length objects2 = 2.
Proof.
  assert (Hlive : Forall (live (heap exState)) [ptrUnknown 1; ptrStruct "*api.Secret" 5]).
  { by repeat constructor. }
  split; [exact Hlive|].
  exact (EncodeList_then_DecodeList (Co:=exCollaborators) brokenEncoder [] [decStrict]
           _ exState Hlive).
Defined.

Lemma objectTyperToTyper_ObjectKind_result_witness :
  ∃ unv err s',
    objectTyperToTyper_ObjectKind (@Build_objectTyperToTyper exCollaborators typStatus)
      nilObject exState =
      Some ((Some statusKind, unv, err), s') ∧
    exObjectKind typStatus nilObject = (statusKind, None) ∧
    exIsUnversioned typStatus nilObject = (unv, true).
Proof.
  destruct (objectTyperToTyper_ObjectKind_result
              (@Build_objectTyperToTyper exCollaborators typStatus) nilObject exState)
    as (gvk & unv & err & s' & Hrun & _ & _ & _ & Hkind).
  assert (Hgvk : gvk = Some statusKind).
  { revert Hrun. vm_compute. by intros [= <- _]. }
  subst gvk. exists unv, err, s'. split; [exact Hrun|]. exact (Hkind statusKind eq_refl).
Defined.

Lemma MultiObjectTyper_kind_app_witness :
  ([typNone; typClosed] ≠ [] ∧ [typStatus; typPods] ≠ []) ∧
  MultiObjectTyper_ObjectKind ([typNone; typClosed] ++ [typStatus; typPods]) nilObject
    exState =
    Some ((statusKind, None),
          log [EvObjectKind typNone nilObject; EvObjectKind typClosed nilObject;
               EvObjectKind typStatus nilObject] exState).
Proof.
  split; [done|]. etrans.
  - exact (proj1 (MultiObjectTyper_kind_app (Co:=exCollaborators) [typNone; typClosed]
             [typStatus; typPods] nilObject exState ltac:(done) ltac:(done))).
  - vm_compute. reflexivity.
Defined.
